(** * A verification model of [run_pipeline.py]

    The script cleans a table of numeric records in three passes
    (business-rule filter, IQR winsorisation, median imputation).  This file
    embeds [iqr_winsorize] and [clean_dataset] and proves the properties
    stated about them.

    Modelling conventions.
    - A cell of a numeric pandas column is a float64.  Finite numbers are
      modelled as exact rationals ([Qc], canonical fractions, so that equal
      numbers are equal terms); the missing marker is the separate
      constructor [NaN].  Rounding and infinities are outside the model.
    - A [Series] is the list of its cells by row position.  A [DataFrame] is
      its row index together with its columns in header order.
    - [quantile], [median], [clip], [fillna] and the indexing operations are
      the pandas/numpy operations the script calls, written out from their
      documented behaviour on this data.
    - [clean_dataset] mutates the frame bound to its local name [df]; the
      store of live frames, the console and [KeyError] are explicit in the
      monad [M]. *)

From Stdlib Require Import QArith Qcanon Qround Lqa.
From stdpp Require Import base numbers list strings sorting.

Open Scope Qc_scope.

(** ** Cells and columns *)

Inductive value : Type :=
  | NaN
  | Num (x : Qc).

Global Instance value_eq_dec : EqDecision value.
Proof. solve_decision. Defined.

Abbreviation Series := (list value).

(** Integer and decimal literals. *)
Definition qz (z : Z) : Qc := Q2Qc (inject_Z z).
Definition qfrac (n : Z) (d : positive) : Qc := Q2Qc (n # d).

Definition vz (z : Z) : value := Num (qz z).

(** Float arithmetic on scalars: [NaN] is absorbing. *)
Definition vlift2 (f : Qc → Qc → Qc) (a b : value) : value :=
  match a, b with
  | Num x, Num y => Num (f x y)
  | _, _ => NaN
  end.

Definition vadd : value → value → value := vlift2 Qcplus.
Definition vsub : value → value → value := vlift2 Qcminus.
Definition vmul : value → value → value := vlift2 Qcmult.

(** Comparisons with a scalar: every comparison with [NaN] is false. *)
Definition v_lt (v : value) (c : Qc) : bool :=
  match v with NaN => false | Num x => bool_decide (x < c) end.
Definition v_le (v : value) (c : Qc) : bool :=
  match v with NaN => false | Num x => bool_decide (x ≤ c) end.
Definition v_ge (v : value) (c : Qc) : bool :=
  match v with NaN => false | Num x => bool_decide (c ≤ x) end.

Definition is_nan (v : value) : bool :=
  match v with NaN => true | Num _ => false end.

(** [s.isna()], [(s < c)], [(s >= c)], [m1 | m2], [mask.sum()]. *)
Definition isna (s : Series) : list bool := map is_nan s.
Definition series_lt (s : Series) (c : Qc) : list bool := map (λ v, v_lt v c) s.
Definition series_ge (s : Series) (c : Qc) : list bool := map (λ v, v_ge v c) s.
Definition series_le (s : Series) (c : Qc) : list bool := map (λ v, v_le v c) s.
Definition mask_or (m1 m2 : list bool) : list bool := zip_with orb m1 m2.
Definition mask_sum (m : list bool) : nat := length (filter (λ b, b = true) m).

(** The non-missing cells, in row order. *)
Fixpoint dropna (s : Series) : list Qc :=
  match s with
  | [] => []
  | NaN :: s' => dropna s'
  | Num x :: s' => x :: dropna s'
  end.

Definition sort_values (xs : list Qc) : list Qc := merge_sort Qcle xs.

(** numpy's linear interpolation between neighbours [a] and [b]. *)
Definition lerp (a b t : Qc) : Qc :=
  if bool_decide (qfrac 1 2 ≤ t) then b - (b - a) * (1 - t)
  else a + (b - a) * t.

(** [np.percentile(..., method="linear")] on sorted data: the virtual index
    is [(n-1)*q]; its floor and the next position, both kept inside the
    array, are interpolated by the fractional part. *)
Definition quantile_sorted (xs : list Qc) (q : Qc) : Qc :=
  let n := length xs in
  let h := qz (Z.of_nat n - 1) * q in
  let fl := Qfloor h in
  let gamma := h - qz fl in
  let i := Nat.min (Z.to_nat fl) (n - 1) in
  let j := Nat.min (i + 1) (n - 1) in
  lerp (nth i xs 0) (nth j xs 0) gamma.

(** [Series.quantile(q)]: missing cells are left out; no cell left gives NaN. *)
Definition quantile (s : Series) (q : Qc) : value :=
  match dropna s with
  | [] => NaN
  | xs => Num (quantile_sorted (sort_values xs) q)
  end.

(** [Series.median()]: the middle of the sorted non-missing cells, or the
    mean of the two middle ones; NaN when there is none. *)
Definition median_sorted (xs : list Qc) : Qc :=
  let n := length xs in
  if Nat.even n then (nth (n / 2 - 1) xs 0 + nth (n / 2) xs 0) / qz 2
  else nth (n / 2) xs 0.

Definition median (s : Series) : value :=
  match dropna s with
  | [] => NaN
  | xs => Num (median_sorted (sort_values xs))
  end.

(** [Series.where(cond, other)]: keep the cell where [cond] holds. *)
Definition where_ (s : Series) (cond : list bool) (other : Qc) : Series :=
  zip_with (λ v (c : bool), if c then v else Num other) s cond.

(** [Series.clip(lower, upper)] with scalar thresholds.  A NaN threshold
    does not clip; two thresholds given in the wrong order are swapped;
    cells below [lower] become [lower], cells above [upper] become [upper];
    missing cells stay missing. *)
Definition threshold (v : value) : option Qc :=
  match v with NaN => None | Num x => Some x end.

Definition clip_with_scalar (s : Series) (lower upper : option Qc) : Series :=
  let mask := isna s in
  let result :=
    match lower with
    | Some lo => where_ s (mask_or mask (series_ge s lo)) lo
    | None => s
    end in
  match upper with
  | Some up => where_ result (mask_or mask (series_le s up)) up
  | None => result
  end.

(** Python's [min(a, b)] and [max(a, b)] on numbers. *)
Definition py_min (a b : Qc) : Qc := if bool_decide (b < a) then b else a.
Definition py_max (a b : Qc) : Qc := if bool_decide (a < b) then b else a.

Definition clip (s : Series) (lower upper : value) : Series :=
  match threshold lower, threshold upper with
  | Some lo, Some up => clip_with_scalar s (Some (py_min lo up)) (Some (py_max lo up))
  | lo, up => clip_with_scalar s lo up
  end.

(** [Series.fillna(value)]: a NaN fill value fills nothing. *)
Definition fillna (s : Series) (fill : value) : Series :=
  map (λ v, if is_nan v then fill else v) s.

(** ** [iqr_winsorize] *)

(** The local variables [lower] and [upper] of [iqr_winsorize]. *)
Definition iqr_bounds (series : Series) (k : Qc) : value * value :=
  let q1 := quantile series (qfrac 1 4) in
  let q3 := quantile series (qfrac 3 4) in
  let iqr := vsub q3 q1 in
  let lower := vsub q1 (vmul (Num k) iqr) in
  let upper := vadd q3 (vmul (Num k) iqr) in
  (lower, upper).

Definition iqr_winsorize (series : Series) (k : Qc) : Series :=
  let '(lower, upper) := iqr_bounds series k in
  clip series lower upper.

Definition k_default : Qc := qfrac 3 2.

(** ** Data frames *)

(** Row labels and, in header order, the named columns; every column is
    aligned with the index by position. *)
Record DataFrame : Type := mkDF {
  index : list nat;
  columns : list (string * Series)
}.

Global Instance DataFrame_eq_dec : EqDecision DataFrame.
Proof. solve_decision. Defined.

(** A frame as [read_csv] builds it: columns as long as the index. *)
Definition well_formed (d : DataFrame) : Prop :=
  Forall (λ c, length c.2 = length (index d)) (columns d).

(** [col in df.columns] *)
Definition has_column (d : DataFrame) (col : string) : bool :=
  bool_decide (col ∈ (columns d).*1).

Fixpoint assoc_get (col : string) (cs : list (string * Series)) : option Series :=
  match cs with
  | [] => None
  | (c, s) :: cs' => if decide (c = col) then Some s else assoc_get col cs'
  end.

(** Column assignment keeps the position of an existing column and appends
    a new one. *)
Fixpoint assoc_set (col : string) (s : Series) (cs : list (string * Series))
  : list (string * Series) :=
  match cs with
  | [] => [(col, s)]
  | (c, s') :: cs' =>
      if decide (c = col) then (c, s) :: cs' else (c, s') :: assoc_set col s cs'
  end.

Definition get_column (d : DataFrame) (col : string) : option Series :=
  assoc_get col (columns d).

Definition set_column (d : DataFrame) (col : string) (s : Series) : DataFrame :=
  mkDF (index d) (assoc_set col s (columns d)).

(** Boolean indexing: the positions where the mask is true. *)
Fixpoint select {A} (mask : list bool) (l : list A) : list A :=
  match mask, l with
  | b :: mask', x :: l' => if b then x :: select mask' l' else select mask' l'
  | _, _ => []
  end.

Definition select_rows (d : DataFrame) (mask : list bool) : DataFrame :=
  mkDF (select mask (index d)) (map (λ c, (c.1, select mask c.2)) (columns d)).

Definition nrows (d : DataFrame) : nat := length (index d).

(** ** The interpreter state: live frames, console, exceptions *)

Definition loc : Type := nat.

(** The lines [clean_dataset] prints, by their contents. *)
Inductive Diag : Type :=
  | InfoRemoved (nb_impossible : nat)
  | InfoWinsorised (col : string)
  | WarnNoWinsor (col : string)
  | InfoImputed (col : string) (nb_nan_before : nat) (median_value : value)
      (nb_nan_after : nat)
  | WarnNoImpute (col : string).

Global Instance Diag_eq_dec : EqDecision Diag.
Proof. solve_decision. Defined.

Inductive exn : Type :=
  | KeyError (key : string)
  | DeadReference (l : loc).

Global Instance exn_eq_dec : EqDecision exn.
Proof. solve_decision. Defined.

Record World : Type := mkWorld {
  frames : list DataFrame;
  console : list Diag
}.

Definition M (A : Type) : Type := World → (exn + A) * World.

Global Instance M_ret : MRet M := λ A a w, (inr a, w).
Global Instance M_bind : MBind M := λ A B f m w,
  match m w with
  | (inl e, w') => (inl e, w')
  | (inr a, w') => f a w'
  end.

Definition raise {A} (e : exn) : M A := λ w, (inl e, w).

Definition print (line : Diag) : M () := λ w,
  (inr (), mkWorld (frames w) (console w ++ [line])).

Definition deref (df : loc) : M DataFrame := λ w,
  match frames w !! df with
  | Some d => (inr d, w)
  | None => (inl (DeadReference df), w)
  end.

Definition alloc (d : DataFrame) : M loc := λ w,
  (inr (length (frames w)), mkWorld (frames w ++ [d]) (console w)).

Definition store (df : loc) (d : DataFrame) : M () := λ w,
  (inr (), mkWorld (<[df := d]> (frames w)) (console w)).

(** [df.copy()] *)
Definition df_copy (df : loc) : M loc := d ← deref df; alloc d.

(** [col in df.columns] *)
Definition df_contains (df : loc) (col : string) : M bool :=
  d ← deref df; mret (has_column d col).

(** [df[col]] *)
Definition df_getitem (df : loc) (col : string) : M Series :=
  d ← deref df;
  match get_column d col with
  | Some s => mret s
  | None => raise (KeyError col)
  end.

(** [df[col] = s]: mutates the frame [df] refers to. *)
Definition df_setitem (df : loc) (col : string) (s : Series) : M () :=
  d ← deref df; store df (set_column d col s).

(** [df[mask]]: a new frame. *)
Definition df_select (df : loc) (mask : list bool) : M loc :=
  d ← deref df; alloc (select_rows d mask).

Fixpoint for_each {A} (l : list A) (body : A → M ()) : M () :=
  match l with
  | [] => mret ()
  | x :: l' => body x;; for_each l' body
  end.

(** ** [clean_dataset] *)

Definition cols_with_outliers : list string :=
  ["taille"; "poids"; "revenu_estime_mois"; "montant_pret"]%string.

Definition cols_to_impute : list string :=
  ["historique_credits"; "score_credit"; "loyer_mensuel"]%string.

(** Stage 1 (lines 53-59): remove impossible values (business rule). *)
Definition remove_impossible (df : loc) : M loc :=
  b ← df_contains df "loyer_mensuel";
  if b : bool then
    s ← df_getitem df "loyer_mensuel";
    let mask_impossible := series_lt s 0 in
    let nb_impossible := mask_sum mask_impossible in
    (if bool_decide (0 < nb_impossible)%nat
     then print (InfoRemoved nb_impossible) else mret ());;
    s1 ← df_getitem df "loyer_mensuel";
    s2 ← df_getitem df "loyer_mensuel";
    df_select df (mask_or (isna s1) (series_ge s2 0))
  else mret df.

(** Stage 2 (lines 63-68): the body of the loop over [cols_with_outliers]. *)
Definition winsorize_body (df : loc) (col : string) : M () :=
  b ← df_contains df col;
  if b : bool then
    s ← df_getitem df col;
    df_setitem df col (iqr_winsorize s k_default);;
    print (InfoWinsorised col)
  else print (WarnNoWinsor col).

(** Stage 3 (lines 72-85): the body of the loop over [cols_to_impute]. *)
Definition impute_body (df : loc) (col : string) : M () :=
  b ← df_contains df col;
  if b : bool then
    s ← df_getitem df col;
    let nb_nan_before := mask_sum (isna s) in
    if bool_decide (0 < nb_nan_before)%nat then
      s ← df_getitem df col;
      let median_value := median s in
      s ← df_getitem df col;
      df_setitem df col (fillna s median_value);;
      s ← df_getitem df col;
      let nb_nan_after := mask_sum (isna s) in
      print (InfoImputed col nb_nan_before median_value nb_nan_after)
    else mret ()
  else print (WarnNoImpute col).

Definition clean_dataset (df : loc) : M loc :=
  df ← df_copy df;
  df ← remove_impossible df;
  for_each cols_with_outliers (winsorize_body df);;
  for_each cols_to_impute (impute_body df);;
  mret df.

(** [main]'s use of the cleaner: the raw frame is the only live frame, the
    console is empty.  The result is the exception raised, or the cleaned
    frame, the console, and the raw frame as it is after the call. *)
Definition run_clean (df_raw : DataFrame)
  : exn + (DataFrame * list Diag * DataFrame) :=
  match (df_clean ← clean_dataset 0%nat;
         clean ← deref df_clean;
         raw ← deref 0%nat;
         mret (clean, raw)) (mkWorld [df_raw] []) with
  | (inl e, _) => inl e
  | (inr (clean, raw), w) => inr (clean, console w, raw)
  end.

(** ** The three stages as functions on frames

    What [clean_dataset] does to the frame it works on, stage by stage, as
    plain functions; [clean_dataset_run] below proves that the program
    computes exactly these. *)

(** The rows Stage 1 keeps: rent missing or not negative. *)
Definition keep_mask (s : Series) : list bool :=
  mask_or (isna s) (series_ge s 0).

Definition stage1 (d : DataFrame) : DataFrame * list Diag :=
  match get_column d "loyer_mensuel" with
  | Some s =>
      let nb_impossible := mask_sum (series_lt s 0) in
      (select_rows d (keep_mask s),
       if bool_decide (0 < nb_impossible)%nat then [InfoRemoved nb_impossible] else [])
  | None => (d, [])
  end.

Definition winsorize_step (d : DataFrame) (col : string) : DataFrame * list Diag :=
  match get_column d col with
  | Some s => (set_column d col (iqr_winsorize s k_default), [InfoWinsorised col])
  | None => (d, [WarnNoWinsor col])
  end.

Definition impute_step (d : DataFrame) (col : string) : DataFrame * list Diag :=
  match get_column d col with
  | Some s =>
      let nb_nan_before := mask_sum (isna s) in
      if bool_decide (0 < nb_nan_before)%nat then
        let median_value := median s in
        let s' := fillna s median_value in
        (set_column d col s',
         [InfoImputed col nb_nan_before median_value (mask_sum (isna s'))])
      else (d, [])
  | None => (d, [WarnNoImpute col])
  end.

Fixpoint run_steps (step : DataFrame → string → DataFrame * list Diag)
    (cols : list string) (d : DataFrame) : DataFrame * list Diag :=
  match cols with
  | [] => (d, [])
  | col :: cols' =>
      let '(d1, out1) := step d col in
      let '(d2, out2) := run_steps step cols' d1 in
      (d2, out1 ++ out2)
  end.

Definition stage2 (d : DataFrame) : DataFrame * list Diag :=
  run_steps winsorize_step cols_with_outliers d.

Definition stage3 (d : DataFrame) : DataFrame * list Diag :=
  run_steps impute_step cols_to_impute d.

Definition clean_pure (d : DataFrame) : DataFrame * list Diag :=
  let '(d1, out1) := stage1 d in
  let '(d2, out2) := stage2 d1 in
  let '(d3, out3) := stage3 d2 in
  (d3, out1 ++ out2 ++ out3).

Definition clean_frame (d : DataFrame) : DataFrame := (clean_pure d).1.
Definition clean_log (d : DataFrame) : list Diag := (clean_pure d).2.

(** The frame after Stage 1 and after Stage 2. *)
Definition after_stage1 (d : DataFrame) : DataFrame := (stage1 d).1.
Definition after_stage2 (d : DataFrame) : DataFrame := (stage2 (after_stage1 d)).1.

(** ** The Outlier Bounder as the specification words it *)

(** Every non-missing [v] becomes [max(lower, min(upper, v))] with
    [lower = Q1 - k*IQR] and [upper = Q3 + k*IQR]; missing cells pass
    through. *)
Definition Qc_max (a b : Qc) : Qc := if bool_decide (a ≤ b) then b else a.
Definition Qc_min (a b : Qc) : Qc := if bool_decide (a ≤ b) then a else b.

Definition clamp (lower upper : Qc) (v : value) : value :=
  match v with
  | NaN => NaN
  | Num x => Num (Qc_max lower (Qc_min upper x))
  end.

Definition bound_spec (column : Series) (k : Qc) : Series :=
  match quantile column (qfrac 1 4), quantile column (qfrac 3 4) with
  | Num q1, Num q3 =>
      let iqr := q3 - q1 in
      map (clamp (q1 - k * iqr) (q3 + k * iqr)) column
  | _, _ => column
  end.

(** The number of missing cells of a column. *)
Definition count_missing (s : Series) : nat := mask_sum (isna s).
Definition count_present (s : Series) : nat := length (dropna s).

(** ** What the cleaner does to one column

    Used to state the frame-level properties: the rows Stage 1 keeps, and
    the treatment a column receives in Stages 2 and 3 according to the two
    policy lists. *)

(** The cells of a column of [d] on the rows that survive Stage 1. *)
Definition rows_kept (d : DataFrame) (s : Series) : Series :=
  match get_column d "loyer_mensuel" with
  | Some rent => select (keep_mask rent) s
  | None => s
  end.

Definition treat (col : string) (s : Series) : Series :=
  if bool_decide (col ∈ cols_with_outliers) then iqr_winsorize s k_default
  else if bool_decide (col ∈ cols_to_impute) then fillna s (median s)
  else s.

(** The number of cells that hold a number below zero. *)
Definition count_negative (s : Series) : nat :=
  length (filter (λ x : Qc, x < 0) (dropna s)).

(** A cell that is missing or not negative. *)
Definition missing_or_nonneg (v : value) : Prop :=
  match v with NaN => True | Num x => 0 ≤ x end.

(** A loop round that rewrites its own column by [f] and nothing else, and
    prints according to that column only. *)
Definition column_step (step : DataFrame → string → DataFrame * list Diag)
    (f : list value → list value) : Prop :=
  (∀ d col, get_column (step d col).1 col = f <$> get_column d col) ∧
  (∀ d col c, col ≠ c → get_column (step d col).1 c = get_column d c) ∧
  (∀ d col, index (step d col).1 = index d) ∧
  (∀ d d' col, get_column d col = get_column d' col → (step d col).2 = (step d' col).2).

(** ** Sample frames *)

(** One credit-score column with a gap. *)
Definition frame_score_gap : DataFrame :=
  mkDF [0; 1; 2; 3]%nat [("score_credit"%string, [vz 10; vz 20; NaN; vz 40])].

(** A credit-score column without any value. *)
Definition frame_score_empty : DataFrame :=
  mkDF [0; 1]%nat [("score_credit"%string, [NaN; NaN])].

(** Rents with a negative and a missing one, next to a free column. *)
Definition frame_rents : DataFrame :=
  mkDF [0; 1; 2; 3]%nat
    [("loyer_mensuel"%string, [vz 500; vz (-20); NaN; vz 700]);
     ("age"%string, [vz 30; vz 41; vz 52; vz 63])].

(** ** The console, line by line

    What [clean_dataset] prints, read off the raw frame: the removal line
    of Stage 1, one line per outlier column, and the lines of Stage 3. *)

Definition removal_lines (d : DataFrame) : list Diag :=
  match get_column d "loyer_mensuel" with
  | Some rent =>
      if bool_decide (0 < count_negative rent)%nat
      then [InfoRemoved (count_negative rent)] else []
  | None => []
  end.

Definition winsorize_line (d : DataFrame) (col : string) : Diag :=
  if has_column d col then InfoWinsorised col else WarnNoWinsor col.

Definition impute_lines (d : DataFrame) (col : string) : list Diag :=
  match get_column d col with
  | Some raw =>
      let s := rows_kept d raw in
      if bool_decide (0 < count_missing s)%nat
      then [InfoImputed col (count_missing s) (median s)
              (count_missing (fillna s (median s)))]
      else []
  | None => [WarnNoImpute col]
  end.

(** ** The missing-value percentage of [main]

    [df.isna().mean() * 100] (lines 117 and 126), one entry per column:
    the mean of the missing-cell indicator, NaN on a frame without rows. *)

Definition isna_mean (s : Series) : value :=
  match s with
  | [] => NaN
  | _ => Num (qz (Z.of_nat (mask_sum (isna s))) / qz (Z.of_nat (length s)))
  end.

Definition missing_pct_column (s : Series) : value :=
  vmul (isna_mean s) (Num (qz 100)).

Definition missing_pct (d : DataFrame) : list (string * value) :=
  map (λ c, (c.1, missing_pct_column c.2)) (columns d).

(** The header of a frame. *)
Definition column_names (d : DataFrame) : list string := (columns d).*1.

(** A frame with a height column that the bounder clips twice. *)
Definition frame_heights : DataFrame :=
  mkDF [0; 1; 2; 3]%nat
    [("taille"%string, [vz 0; vz 100; vz 100; vz 100]);
     ("score_credit"%string, [vz 1; NaN; vz 3; vz 5])].

(** ** Proof tools *)

(** Closed equalities between frames, columns and numbers, by evaluation. *)
Ltac by_computation :=
  apply (bool_decide_eq_true_1 _); vm_compute; reflexivity.

(** Order and equality goals on [Qc], sent to the arithmetic of [Q]. *)
Ltac qc_unfold :=
  unfold Qcle, Qclt, Qcplus, Qcminus, Qcmult, Qcopp, qz, qfrac in *;
  simpl in *; rewrite ?Qred_correct in *.

Ltac qc_nra := qc_unfold; nra.

(** * Lemmas on numbers and sorted data *)

Section Numbers.
Implicit Types a b t x y q : Qc.

Lemma lerp_eq a b t : lerp a b t = a + (b - a) * t.
Proof. unfold lerp. case_bool_decide; ring. Qed.

Lemma lerp_between a b t : a ≤ b → 0 ≤ t → t ≤ 1 → a ≤ lerp a b t ∧ lerp a b t ≤ b.
Proof. rewrite lerp_eq. intros. split; qc_nra. Qed.

Lemma lerp_mono a b t1 t2 : a ≤ b → t1 ≤ t2 → lerp a b t1 ≤ lerp a b t2.
Proof. rewrite !lerp_eq. intros. qc_nra. Qed.

Lemma lerp_same a t : lerp a a t = a.
Proof. rewrite lerp_eq. ring. Qed.

Lemma py_min_le a b : a ≤ b → py_min a b = a.
Proof.
  unfold py_min. intros. case_bool_decide; [|done].
  exfalso. by eapply Qclt_not_le.
Qed.

Lemma py_max_le a b : a ≤ b → py_max a b = b.
Proof.
  unfold py_max. intros Hab. case_bool_decide as Hlt; [done|].
  apply Qcnot_lt_le in Hlt. by apply Qcle_antisym.
Qed.

Lemma py_min_max_le a b : py_min a b ≤ py_max a b.
Proof.
  unfold py_min, py_max.
  destruct (Qclt_le_dec b a) as [Hba|Hab].
  - rewrite (bool_decide_eq_true_2 _ Hba).
    rewrite bool_decide_eq_false_2; [by apply Qclt_le_weak|].
    intros Hab. by eapply Qclt_not_le, Qclt_le_weak.
  - rewrite (bool_decide_eq_false_2 (b < a)); [|by apply Qcle_not_lt].
    case_bool_decide; [done|apply Qcle_refl].
Qed.
End Numbers.

Section SortedData.
Implicit Types xs : list Qc.

Lemma sort_values_sorted xs : StronglySorted Qcle (sort_values xs).
Proof. apply (StronglySorted_merge_sort _). Qed.

Lemma sort_values_perm xs : sort_values xs ≡ₚ xs.
Proof. apply merge_sort_Permutation. Qed.

Lemma nth_elem_of_lt xs i : (i < length xs)%nat → nth i xs 0 ∈ xs.
Proof.
  intros Hi. destruct (lookup_lt_is_Some_2 xs i Hi) as [y Hy].
  rewrite (nth_lookup_Some _ _ _ _ Hy). by eapply list_elem_of_lookup_2.
Qed.

Lemma sorted_nth_le xs i j :
  StronglySorted Qcle xs → (i ≤ j)%nat → (j < length xs)%nat →
  nth i xs 0 ≤ nth j xs 0.
Proof.
  intros Hs. revert i j.
  induction Hs as [|x xs Hs IH Hall]; simpl; intros i j Hij Hj; [lia|].
  destruct i as [|i], j as [|j]; try lia.
  - apply Qcle_refl.
  - rewrite Forall_forall in Hall. apply Hall, nth_elem_of_lt. lia.
  - apply IH; lia.
Qed.

(** The virtual index of a quantile splits into a position inside the
    data and a fraction in [0, 1). *)
Lemma virtual_index_split (n : nat) (q : Qc) :
  (0 < n)%nat → 0 ≤ q → q ≤ 1 →
  ∃ (i : nat) (g : Qc),
    Qfloor (qz (Z.of_nat n - 1) * q)%Qc = Z.of_nat i ∧ (i ≤ n - 1)%nat ∧
    0 ≤ g ∧ g < 1 ∧
    qz (Z.of_nat n - 1) * q - qz (Qfloor (qz (Z.of_nat n - 1) * q)%Qc) = g ∧
    (this (qz (Z.of_nat n - 1) * q) == inject_Z (Z.of_nat i) + this g)%Q.
Proof.
  intros Hn Hq0 Hq1.
  set (h := qz (Z.of_nat n - 1) * q).
  assert (Hm : (0 <= inject_Z (Z.of_nat n - 1))%Q)
    by (change 0%Q with (inject_Z 0); rewrite <- Zle_Qle; lia).
  assert (Hh : (this h == inject_Z (Z.of_nat n - 1) * this q)%Q)
    by (unfold h; qc_unfold; reflexivity).
  assert (Hh0 : (0 <= this h)%Q) by (rewrite Hh; qc_nra).
  assert (Hh1 : (this h <= inject_Z (Z.of_nat n - 1))%Q) by (rewrite Hh; qc_nra).
  pose proof (Qfloor_resp_le _ _ Hh0) as Hf0.
  pose proof (Qfloor_resp_le _ _ Hh1) as Hf1.
  rewrite Qfloor_Z in Hf1. change (Qfloor 0) with 0%Z in Hf0.
  pose proof (Qfloor_le (this h)) as Hfl.
  pose proof (Qlt_floor (this h)) as Hfu.
  rewrite inject_Z_plus in Hfu.
  exists (Z.to_nat (Qfloor (this h))), (h - qz (Qfloor (this h))).
  rewrite Z2Nat.id by done.
  split_and!.
  - reflexivity.
  - lia.
  - clearbody h. qc_unfold. lra.
  - clearbody h. qc_unfold. change (inject_Z 1) with 1%Q in Hfu. lra.
  - reflexivity.
  - clearbody h. qc_unfold. lra.
Qed.

Lemma quantile_sorted_unfold xs (q : Qc) :
  xs ≠ [] → 0 ≤ q → q ≤ 1 →
  ∃ (i : nat) (g : Qc),
    (i ≤ length xs - 1)%nat ∧ 0 ≤ g ∧ g < 1 ∧
    (this (qz (Z.of_nat (length xs) - 1) * q) == inject_Z (Z.of_nat i) + this g)%Q ∧
    quantile_sorted xs q =
      lerp (nth i xs 0) (nth (Nat.min (i + 1) (length xs - 1)) xs 0) g.
Proof.
  intros Hne Hq0 Hq1.
  assert (Hn : (0 < length xs)%nat) by (destruct xs; [done|simpl; lia]).
  destruct (virtual_index_split _ _ Hn Hq0 Hq1) as (i & g & Hfl & Hi & Hg0 & Hg1 & Hg & Hsplit).
  exists i, g. split_and!; try done.
  unfold quantile_sorted. rewrite Hg, Hfl, Nat2Z.id.
  by rewrite (Nat.min_l i) by done.
Qed.

Lemma quantile_sorted_mono xs (q1 q2 : Qc) :
  StronglySorted Qcle xs → xs ≠ [] → 0 ≤ q1 → q1 ≤ q2 → q2 ≤ 1 →
  quantile_sorted xs q1 ≤ quantile_sorted xs q2.
Proof.
  intros Hs Hne Hq1 Hq12 Hq2.
  assert (Hn : (0 < length xs)%nat) by (destruct xs; [done|simpl; lia]).
  assert (Hq1' : q1 ≤ 1) by (by etrans).
  assert (Hq2' : 0 ≤ q2) by (by etrans).
  destruct (quantile_sorted_unfold xs q1 Hne Hq1 Hq1')
    as (i1 & g1 & Hi1 & Hg10 & Hg11 & Hh1 & ->).
  destruct (quantile_sorted_unfold xs q2 Hne Hq2' Hq2)
    as (i2 & g2 & Hi2 & Hg20 & Hg21 & Hh2 & ->).
  assert (Hm : (0 <= inject_Z (Z.of_nat (length xs) - 1))%Q)
    by (change 0%Q with (inject_Z 0); rewrite <- Zle_Qle; lia).
  assert (Hle : (inject_Z (Z.of_nat i1) + this g1 <= inject_Z (Z.of_nat i2) + this g2)%Q).
  { rewrite <- Hh1, <- Hh2. qc_unfold. nra. }
  assert (Hord1 : nth i1 xs 0 ≤ nth (Nat.min (i1 + 1) (length xs - 1)) xs 0)
    by (apply sorted_nth_le; [done|lia|lia]).
  assert (Hord2 : nth i2 xs 0 ≤ nth (Nat.min (i2 + 1) (length xs - 1)) xs 0)
    by (apply sorted_nth_le; [done|lia|lia]).
  destruct (decide (i1 = i2)) as [->|Hne12].
  - apply lerp_mono; [done|]. qc_unfold. lra.
  - assert (i1 < i2)%nat as Hlt.
    { destruct (decide (i1 < i2)%nat) as [|Hge]; [done|exfalso].
      assert (Z.of_nat i2 + 1 <= Z.of_nat i1)%Z as Hz by lia.
      rewrite Zle_Qle, inject_Z_plus in Hz. change (inject_Z 1) with 1%Q in Hz.
      qc_unfold. lra. }
    trans (nth (Nat.min (i1 + 1) (length xs - 1)) xs 0).
    { apply lerp_between; [done|done|by apply Qclt_le_weak]. }
    trans (nth i2 xs 0).
    { apply sorted_nth_le; [done|lia|lia]. }
    apply lerp_between; [done|done|by apply Qclt_le_weak].
Qed.

Lemma quantile_sorted_const xs (v q : Qc) :
  xs ≠ [] → Forall (λ x, x = v) xs → quantile_sorted xs q = v.
Proof.
  intros Hne Hall.
  assert (Hn : (0 < length xs)%nat) by (destruct xs; [done|simpl; lia]).
  assert (Hnth : ∀ i, (i ≤ length xs - 1)%nat → nth i xs 0 = v).
  { intros i Hi. rewrite Forall_forall in Hall. apply Hall, nth_elem_of_lt. lia. }
  unfold quantile_sorted. rewrite !Hnth by lia. apply lerp_same.
Qed.
End SortedData.

(** * Lemmas on columns *)

Section Columns.
Implicit Types s : Series.
Implicit Types v : value.

Lemma elem_of_dropna s (x : Qc) : x ∈ dropna s ↔ Num x ∈ s.
Proof.
  induction s as [|[|y] s IH]; simpl.
  - by rewrite !elem_of_nil.
  - rewrite elem_of_cons, IH. split; [by right|]. by intros [?|?].
  - rewrite !elem_of_cons, IH. split.
    + intros [->|?]; [by left|by right].
    + intros [[= ->]|?]; [by left|by right].
Qed.

Lemma dropna_nil s : dropna s = [] ↔ Forall (λ v, v = NaN) s.
Proof.
  induction s as [|[|y] s IH]; simpl.
  - split; [constructor|done].
  - rewrite Forall_cons, IH. split; [done|by intros [_ ?]].
  - split; [done|]. by inversion 1.
Qed.

Lemma dropna_lookup_Num s i (x : Qc) : s !! i = Some (Num x) → dropna s ≠ [].
Proof.
  intros Hi Hnil. apply list_elem_of_lookup_2, elem_of_dropna in Hi.
  rewrite Hnil in Hi. by apply elem_of_nil in Hi.
Qed.

Lemma sort_values_nil xs : sort_values xs = [] → xs = [].
Proof.
  intros H. apply Permutation_nil_r. by rewrite <- H, sort_values_perm.
Qed.

Lemma quantile_Num s (q : Qc) :
  dropna s ≠ [] → quantile s q = Num (quantile_sorted (sort_values (dropna s)) q).
Proof. unfold quantile. by destruct (dropna s). Qed.

Lemma quantile_NaN s (q : Qc) : dropna s = [] → quantile s q = NaN.
Proof. unfold quantile. by intros ->. Qed.

Lemma median_Num s :
  dropna s ≠ [] → median s = Num (median_sorted (sort_values (dropna s))).
Proof. unfold median. by destruct (dropna s). Qed.

Lemma median_NaN s : dropna s = [] → median s = NaN.
Proof. unfold median. by intros ->. Qed.

(** Q1 never exceeds Q3. *)
Lemma quartiles_ordered s (q1 q3 : Qc) :
  quantile s (qfrac 1 4) = Num q1 → quantile s (qfrac 3 4) = Num q3 → q1 ≤ q3.
Proof.
  destruct (decide (dropna s = [])) as [Hnil|Hne].
  { by rewrite quantile_NaN. }
  rewrite !quantile_Num by done. intros [= <-] [= <-].
  apply quantile_sorted_mono; try done.
  - apply sort_values_sorted.
  - intros H. by apply sort_values_nil in H.
Qed.

(** The shape of the two thresholds: both NaN on a column without data,
    both numbers otherwise. *)
Lemma iqr_bounds_NaN s (k : Qc) : dropna s = [] → iqr_bounds s k = (NaN, NaN).
Proof. intros H. unfold iqr_bounds. by rewrite !quantile_NaN. Qed.

Lemma iqr_bounds_Num s (k : Qc) :
  dropna s ≠ [] →
  ∃ q1 q3 : Qc,
    quantile s (qfrac 1 4) = Num q1 ∧ quantile s (qfrac 3 4) = Num q3 ∧
    iqr_bounds s k = (Num (q1 - k * (q3 - q1)), Num (q3 + k * (q3 - q1))).
Proof.
  intros H. unfold iqr_bounds. rewrite !quantile_Num by done.
  eexists _, _. by split_and!.
Qed.

Lemma iqr_bounds_ordered s (k lower upper : Qc) :
  0 ≤ k → iqr_bounds s k = (Num lower, Num upper) → lower ≤ upper.
Proof.
  intros Hk Hb.
  destruct (decide (dropna s = [])) as [Hnil|Hne].
  { by rewrite iqr_bounds_NaN in Hb. }
  destruct (iqr_bounds_Num s k Hne) as (q1 & q3 & H1 & H3 & Hb').
  rewrite Hb' in Hb. injection Hb as <- <-.
  pose proof (quartiles_ordered s q1 q3 H1 H3). qc_nra.
Qed.

(** Clipping, cell by cell. *)
Lemma clip_with_scalar_both s (lo up : Qc) :
  clip_with_scalar s (Some lo) (Some up) =
  map (λ v, match v with
            | NaN => NaN
            | Num x => if bool_decide (x ≤ up)
                       then (if bool_decide (lo ≤ x) then Num x else Num lo)
                       else Num up
            end) s.
Proof.
  unfold clip_with_scalar, where_, mask_or, isna, series_ge, series_le.
  induction s as [|[|x] s IH]; simpl; [done|by f_equal..].
Qed.

Lemma clamp_cases (lo up x : Qc) :
  lo ≤ up →
  (if bool_decide (x ≤ up)
   then (if bool_decide (lo ≤ x) then Num x else Num lo)
   else Num up) = clamp lo up (Num x).
Proof.
  intros Hlu. unfold clamp, Qc_max, Qc_min. f_equal.
  repeat case_bool_decide; try done; f_equal;
    try (apply Qcle_antisym; done); exfalso.
  - apply H0. by etrans.
  - destruct (Qc_le_total up x); [|done].
    apply H. by destruct (Qc_le_total x up).
  - destruct (Qc_le_total up x); done.
Qed.

Lemma clip_Num s (lo up : Qc) :
  clip s (Num lo) (Num up) = map (clamp (py_min lo up) (py_max lo up)) s.
Proof.
  unfold clip, threshold. rewrite clip_with_scalar_both.
  apply map_ext. intros [|x]; [done|].
  apply clamp_cases, py_min_max_le.
Qed.

Lemma clip_ordered s (lo up : Qc) :
  lo ≤ up → clip s (Num lo) (Num up) = map (clamp lo up) s.
Proof. intros H. by rewrite clip_Num, py_min_le, py_max_le. Qed.

Lemma lookup_map {A B} (f : A → B) (l : list A) i : map f l !! i = f <$> l !! i.
Proof. revert i. induction l as [|x l IH]; intros [|i]; simpl; auto. Qed.
End Columns.

(** * The Outlier Bounder *)

Section Bounder.
Implicit Types s column : Series.
Implicit Types k : Qc.

Lemma iqr_winsorize_no_data s k : dropna s = [] → iqr_winsorize s k = s.
Proof. intros H. unfold iqr_winsorize. by rewrite iqr_bounds_NaN. Qed.

Lemma iqr_winsorize_clamp s k (q1 q3 : Qc) :
  0 ≤ k →
  quantile s (qfrac 1 4) = Num q1 → quantile s (qfrac 3 4) = Num q3 →
  iqr_winsorize s k = map (clamp (q1 - k * (q3 - q1)) (q3 + k * (q3 - q1))) s.
Proof.
  intros Hk H1 H3.
  assert (Hb : iqr_bounds s k = (Num (q1 - k * (q3 - q1)), Num (q3 + k * (q3 - q1))))
    by (unfold iqr_bounds; by rewrite H1, H3).
  unfold iqr_winsorize. rewrite Hb. apply clip_ordered.
  by eapply iqr_bounds_ordered.
Qed.

Lemma iqr_winsorize_spec s k : 0 ≤ k → iqr_winsorize s k = bound_spec s k.
Proof.
  intros Hk. unfold bound_spec.
  destruct (decide (dropna s = [])) as [Hnil|Hne].
  { rewrite !quantile_NaN by done. by apply iqr_winsorize_no_data. }
  destruct (iqr_bounds_Num s k Hne) as (q1 & q3 & H1 & H3 & _).
  rewrite H1, H3. by apply iqr_winsorize_clamp.
Qed.

(** Whatever [k] is, the result is a cell-wise image of the column that
    keeps missing cells missing and numbers numbers. *)
Lemma iqr_winsorize_cellwise s k :
  ∃ f : Qc → Qc,
    iqr_winsorize s k = map (λ v, match v with NaN => NaN | Num x => Num (f x) end) s.
Proof.
  destruct (decide (dropna s = [])) as [Hnil|Hne].
  - exists id. rewrite iqr_winsorize_no_data by done.
    rewrite <- (map_id s) at 1. apply map_ext. by intros [|x].
  - destruct (iqr_bounds_Num s k Hne) as (q1 & q3 & _ & _ & Hb).
    unfold iqr_winsorize. rewrite Hb, clip_Num.
    eexists (λ x, Qc_max _ (Qc_min _ x)). apply map_ext. by intros [|x].
Qed.

Lemma cellwise_length (f : Qc → Qc) s :
  length (map (λ v, match v with NaN => NaN | Num x => Num (f x) end) s) = length s.
Proof. apply length_map. Qed.

Lemma cellwise_isna (f : Qc → Qc) s :
  isna (map (λ v, match v with NaN => NaN | Num x => Num (f x) end) s) = isna s.
Proof. unfold isna. rewrite map_map. apply map_ext. by intros [|x]. Qed.

Lemma cellwise_count_present (f : Qc → Qc) s :
  count_present (map (λ v, match v with NaN => NaN | Num x => Num (f x) end) s)
  = count_present s.
Proof.
  unfold count_present. induction s as [|[|x] s IH]; simpl; [done|done|by f_equal].
Qed.

Lemma iqr_winsorize_length s k : length (iqr_winsorize s k) = length s.
Proof. destruct (iqr_winsorize_cellwise s k) as [f ->]. apply cellwise_length. Qed.

Lemma iqr_winsorize_isna s k : isna (iqr_winsorize s k) = isna s.
Proof. destruct (iqr_winsorize_cellwise s k) as [f ->]. apply cellwise_isna. Qed.

Lemma clamp_in_bounds (lower upper x : Qc) :
  lower ≤ x → x ≤ upper → clamp lower upper (Num x) = Num x.
Proof.
  intros Hl Hu. unfold clamp, Qc_max, Qc_min. f_equal.
  destruct (bool_decide_reflect (upper ≤ x)) as [Hux|Hux].
  - assert (upper = x) as -> by (by apply Qcle_antisym). by case_bool_decide.
  - by case_bool_decide.
Qed.

Lemma clamp_idemp (lower upper : Qc) v :
  lower ≤ upper → clamp lower upper (clamp lower upper v) = clamp lower upper v.
Proof.
  intros Hlu. destruct v as [|x]; [done|]. simpl.
  assert (Hmin : Qc_min upper x ≤ upper).
  { unfold Qc_min. case_bool_decide as H; [done|].
    by destruct (Qc_le_total upper x). }
  apply clamp_in_bounds; unfold Qc_max; case_bool_decide; done.
Qed.

Lemma clip_idemp s (lower upper : value) :
  (lower = NaN ∧ upper = NaN) ∨ (∃ lo up : Qc, lower = Num lo ∧ upper = Num up) →
  clip (clip s lower upper) lower upper = clip s lower upper.
Proof.
  intros [[-> ->]|(lo & up & -> & ->)]; [done|].
  rewrite !clip_Num, map_map. apply map_ext. intros v.
  apply clamp_idemp, py_min_max_le.
Qed.

Lemma iqr_bounds_shape s k :
  ((iqr_bounds s k).1 = NaN ∧ (iqr_bounds s k).2 = NaN) ∨
  (∃ lo up : Qc, (iqr_bounds s k).1 = Num lo ∧ (iqr_bounds s k).2 = Num up).
Proof.
  destruct (decide (dropna s = [])) as [Hnil|Hne].
  - left. by rewrite iqr_bounds_NaN.
  - right. destruct (iqr_bounds_Num s k Hne) as (q1 & q3 & _ & _ & ->).
    by eexists _, _.
Qed.
End Bounder.

(** C1. For a non-negative multiplier the Outlier Bounder returns a column
    of the same length; a missing cell stays missing; a non-missing cell [v]
    becomes [max(lower, min(upper, v))] with [lower = Q1 - k*IQR] and
    [upper = Q3 + k*IQR], Q1 and Q3 being the 25th and 75th
    linear-interpolation percentiles of the non-missing cells.  On
    [1, 2, 3, 4, 100] with [k = 1.5] the result is [1, 2, 3, 4, 7]. *)
Theorem bounder_clamps (column : Series) (k : Qc) :
  0 ≤ k →
  length (iqr_winsorize column k) = length column ∧
  (∀ i, column !! i = Some NaN → iqr_winsorize column k !! i = Some NaN) ∧
  (∀ i (v : Qc), column !! i = Some (Num v) →
     ∃ q1 q3 : Qc,
       quantile column (qfrac 1 4) = Num q1 ∧
       quantile column (qfrac 3 4) = Num q3 ∧
       let iqr := q3 - q1 in
       let lower := q1 - k * iqr in
       let upper := q3 + k * iqr in
       iqr_winsorize column k !! i = Some (Num (Qc_max lower (Qc_min upper v)))) ∧
  iqr_winsorize column k = bound_spec column k ∧
  iqr_winsorize [vz 1; vz 2; vz 3; vz 4; vz 100] (qfrac 3 2)
    = [vz 1; vz 2; vz 3; vz 4; vz 7].
Proof.
  intros Hk. split_and!.
  - apply iqr_winsorize_length.
  - intros i Hi. destruct (iqr_winsorize_cellwise column k) as [f ->].
    by rewrite lookup_map, Hi.
  - intros i v Hi.
    destruct (iqr_bounds_Num column k (dropna_lookup_Num _ _ _ Hi))
      as (q1 & q3 & H1 & H3 & _).
    exists q1, q3. split_and!; [done..|]. simpl.
    rewrite (iqr_winsorize_clamp column k q1 q3 Hk H1 H3).
    by rewrite lookup_map, Hi.
  - by apply iqr_winsorize_spec.
  - by_computation.
Qed.

Lemma bounder_clamps_witness :
  0 ≤ qfrac 3 2 ∧
  length (iqr_winsorize [vz 1; NaN; vz 9] (qfrac 3 2)) = 3%nat.
Proof.
  split; [done|].
  exact (proj1 (bounder_clamps [vz 1; NaN; vz 9] (qfrac 3 2) ltac:(done))).
Defined.

(** C6. The Outlier Bounder keeps the number of non-missing cells; a cell
    of the result is missing exactly when the input cell is; and a
    non-missing cell that lies within the bounds keeps its value. *)
Theorem bounder_keeps_missingness (column : Series) (k : Qc) :
  0 ≤ k →
  count_present (iqr_winsorize column k) = count_present column ∧
  count_missing (iqr_winsorize column k) = count_missing column ∧
  (∀ i, iqr_winsorize column k !! i = Some NaN ↔ column !! i = Some NaN) ∧
  (∀ i (v lower upper : Qc),
     iqr_bounds column k = (Num lower, Num upper) →
     column !! i = Some (Num v) → lower ≤ v → v ≤ upper →
     iqr_winsorize column k !! i = Some (Num v)).
Proof.
  intros Hk. split_and!.
  - destruct (iqr_winsorize_cellwise column k) as [f ->].
    apply cellwise_count_present.
  - unfold count_missing. by rewrite iqr_winsorize_isna.
  - intros i. destruct (iqr_winsorize_cellwise column k) as [f ->].
    rewrite lookup_map. by destruct (column !! i) as [[|x]|].
  - intros i v lower upper Hb Hi Hl Hu.
    unfold iqr_winsorize. rewrite Hb, clip_ordered by (by eapply iqr_bounds_ordered).
    rewrite lookup_map, Hi. simpl. f_equal. by apply clamp_in_bounds.
Qed.

Lemma bounder_keeps_missingness_witness :
  0 ≤ qfrac 3 2 ∧
  count_present (iqr_winsorize [vz 1; NaN; vz 9] (qfrac 3 2)) = count_present [vz 1; NaN; vz 9].
Proof.
  split; [done|].
  exact (proj1 (bounder_keeps_missingness [vz 1; NaN; vz 9] (qfrac 3 2) ltac:(done))).
Defined.

(** C7. On a column whose non-missing cells all hold the same value [v]
    (at least one of them), Q1 = Q3 = v, IQR = 0, lower = upper = v, and
    the result holds [v] in every non-missing cell. *)
Theorem bounder_single_value (column : Series) (v k : Qc) :
  Num v ∈ column → (∀ x : Qc, Num x ∈ column → x = v) →
  quantile column (qfrac 1 4) = Num v ∧
  quantile column (qfrac 3 4) = Num v ∧
  vsub (quantile column (qfrac 3 4)) (quantile column (qfrac 1 4)) = Num 0 ∧
  iqr_bounds column k = (Num v, Num v) ∧
  iqr_winsorize column k =
    map (λ cell, match cell with NaN => NaN | Num _ => Num v end) column.
Proof.
  intros Hin Hall.
  assert (Hne : dropna column ≠ []).
  { intros Hnil. apply elem_of_dropna in Hin. rewrite Hnil in Hin.
    by apply elem_of_nil in Hin. }
  assert (Hsorted : Forall (λ x, x = v) (sort_values (dropna column))).
  { rewrite sort_values_perm. apply Forall_forall. intros x Hx.
    by apply Hall, elem_of_dropna. }
  assert (Hq : ∀ q, quantile column q = Num v).
  { intros q. rewrite quantile_Num by done. f_equal.
    apply quantile_sorted_const; [|done].
    intros H. by apply sort_values_nil in H. }
  assert (Hb : iqr_bounds column k = (Num v, Num v)).
  { unfold iqr_bounds. rewrite !Hq. simpl. f_equal; f_equal; ring. }
  split_and!; try done.
  - rewrite !Hq. simpl. f_equal. ring.
  - unfold iqr_winsorize. rewrite Hb, clip_ordered by done.
    apply map_ext. intros [|x]; [done|]. simpl. f_equal.
    unfold Qc_max, Qc_min. by repeat case_bool_decide.
Qed.

Lemma bounder_single_value_witness :
  iqr_winsorize [NaN; vz 5; vz 5] (qfrac 3 2) = [NaN; vz 5; vz 5].
Proof.
  refine (proj2 (proj2 (proj2 (proj2
    (bounder_single_value [NaN; vz 5; vz 5] (qz 5) (qfrac 3 2) _ _))))).
  - apply list_elem_of_In. simpl. auto.
  - intros x Hx. apply list_elem_of_In in Hx. simpl in Hx.
    destruct Hx as [?|[[= <-]|[[= <-]|[]]]]; done.
Defined.

(** C2, as stated, fails: on [0, 100, 100, 100] with [k = 1.5] the first
    pass lifts 0 to 37.5, which moves Q1, and the second pass lifts it
    again to 60.9375. *)
Lemma bounder_not_idempotent :
  iqr_winsorize [vz 0; vz 100; vz 100; vz 100] (qfrac 3 2)
    = [Num (qfrac 75 2); vz 100; vz 100; vz 100] ∧
  iqr_winsorize (iqr_winsorize [vz 0; vz 100; vz 100; vz 100] (qfrac 3 2)) (qfrac 3 2)
    = [Num (qfrac 975 16); vz 100; vz 100; vz 100] ∧
  iqr_winsorize (iqr_winsorize [vz 0; vz 100; vz 100; vz 100] (qfrac 3 2)) (qfrac 3 2)
    ≠ iqr_winsorize [vz 0; vz 100; vz 100; vz 100] (qfrac 3 2).
Proof.
  split_and!.
  - by_computation.
  - by_computation.
  - apply (bool_decide_eq_false_1 _). vm_compute. reflexivity.
Qed.

(** C2, amended.  A second pass with the same [k] changes nothing whenever
    the bounds computed on the clipped column are the bounds of the first
    pass. *)
Theorem bounder_idempotent_stable_bounds (column : Series) (k : Qc) :
  iqr_bounds (iqr_winsorize column k) k = iqr_bounds column k →
  iqr_winsorize (iqr_winsorize column k) k = iqr_winsorize column k.
Proof.
  intros Hb. unfold iqr_winsorize at 1. rewrite Hb.
  pose proof (iqr_bounds_shape column k) as Hshape.
  unfold iqr_winsorize. destruct (iqr_bounds column k) as [lower upper].
  by apply clip_idemp.
Qed.

Lemma bounder_idempotent_stable_bounds_witness :
  iqr_winsorize (iqr_winsorize [vz 1; vz 2; vz 3; vz 4; vz 100] (qfrac 3 2)) (qfrac 3 2)
  = iqr_winsorize [vz 1; vz 2; vz 3; vz 4; vz 100] (qfrac 3 2).
Proof.
  apply bounder_idempotent_stable_bounds. by_computation.
Defined.

(** * Lemmas on frames *)

Section Frames.
Implicit Types d : DataFrame.
Implicit Types cs : list (string * list value).
Implicit Types col c : string.

Lemma assoc_get_set_eq col (s : Series) cs :
  assoc_get col (assoc_set col s cs) = Some s.
Proof.
  induction cs as [|[c s'] cs IH]; simpl.
  - by rewrite decide_True.
  - destruct (decide (c = col)) as [->|Hne]; simpl.
    + by rewrite decide_True.
    + by rewrite decide_False.
Qed.

Lemma assoc_get_set_ne col c (s : Series) cs :
  col ≠ c → assoc_get c (assoc_set col s cs) = assoc_get c cs.
Proof.
  intros Hne. induction cs as [|[c' s'] cs IH]; simpl.
  - by rewrite decide_False.
  - destruct (decide (c' = col)) as [->|Hne']; simpl.
    + by rewrite !decide_False.
    + by rewrite IH.
Qed.

Lemma assoc_get_elem_of col cs :
  is_Some (assoc_get col cs) ↔ col ∈ cs.*1.
Proof.
  induction cs as [|[c s] cs IH]; simpl.
  - rewrite elem_of_nil. split; [by intros [? ?]|done].
  - rewrite elem_of_cons. destruct (decide (c = col)) as [->|Hne].
    + split; [by left|by eexists].
    + rewrite IH. split; [by right|]. by intros [->|?].
Qed.

Lemma assoc_get_select col (mask : list bool) cs :
  assoc_get col (map (λ p, (p.1, select mask p.2)) cs)
  = select mask <$> assoc_get col cs.
Proof.
  induction cs as [|[c s] cs IH]; simpl; [done|].
  by destruct (decide (c = col)).
Qed.

Lemma get_set_eq d col (s : Series) : get_column (set_column d col s) col = Some s.
Proof. apply assoc_get_set_eq. Qed.

Lemma get_set_ne d col c (s : Series) :
  col ≠ c → get_column (set_column d col s) c = get_column d c.
Proof. apply assoc_get_set_ne. Qed.

Lemma get_select_rows d (mask : list bool) col :
  get_column (select_rows d mask) col = select mask <$> get_column d col.
Proof. apply assoc_get_select. Qed.

Lemma has_column_Some d col (s : Series) :
  get_column d col = Some s → has_column d col = true.
Proof.
  intros H. apply bool_decide_eq_true_2, assoc_get_elem_of.
  unfold get_column in H. by rewrite H.
Qed.

Lemma has_column_None d col : get_column d col = None → has_column d col = false.
Proof.
  intros H. apply bool_decide_eq_false_2. rewrite <- assoc_get_elem_of.
  unfold get_column in H. rewrite H. by intros [? ?].
Qed.

Lemma well_formed_column d col (s : Series) :
  well_formed d → get_column d col = Some s → length s = nrows d.
Proof.
  unfold well_formed, get_column, nrows. generalize (length (index d)). intros n.
  induction 1 as [|[c s'] cs Hc _ IH]; simpl; [done|].
  destruct (decide (c = col)); [by intros [= <-]|done].
Qed.

Lemma select_length_le {A} (mask : list bool) (l : list A) :
  (length (select mask l) ≤ length l)%nat.
Proof.
  revert l. induction mask as [|[] mask IH]; intros [|x l]; simpl; try lia.
  - specialize (IH l). lia.
  - specialize (IH l). lia.
Qed.

Lemma select_length {A} (mask : list bool) (l : list A) :
  length mask = length l → length (select mask l) = mask_sum mask.
Proof.
  unfold mask_sum. revert l.
  induction mask as [|b mask IH]; intros [|x l]; simpl; try done.
  intros [= Hlen]. rewrite filter_cons.
  destruct b; simpl; [f_equal|]; by apply IH.
Qed.
End Frames.

(** * Running the program *)

Section Execution.
Implicit Types w : World.
Implicit Types d : DataFrame.
Implicit Types df : loc.

Lemma run_bind {A B} (m : M A) (f : A → M B) w (a : A) w' :
  m w = (inr a, w') → (m ≫= f) w = f a w'.
Proof. unfold mbind, M_bind. by intros ->. Qed.

Lemma run_deref w df d : frames w !! df = Some d → deref df w = (inr d, w).
Proof. unfold deref. by intros ->. Qed.

Lemma run_contains w df d col :
  frames w !! df = Some d → df_contains df col w = (inr (has_column d col), w).
Proof. intros H. unfold df_contains. by rewrite (run_bind _ _ _ _ _ (run_deref _ _ _ H)). Qed.

Lemma run_getitem w df d col (s : Series) :
  frames w !! df = Some d → get_column d col = Some s →
  df_getitem df col w = (inr s, w).
Proof.
  intros H Hs. unfold df_getitem.
  rewrite (run_bind _ _ _ _ _ (run_deref _ _ _ H)). by rewrite Hs.
Qed.

Lemma run_setitem w df d col (s : Series) :
  frames w !! df = Some d →
  df_setitem df col s w
  = (inr (), mkWorld (<[df := set_column d col s]> (frames w)) (console w)).
Proof.
  intros H. unfold df_setitem. by rewrite (run_bind _ _ _ _ _ (run_deref _ _ _ H)).
Qed.

Lemma run_select w df d (mask : list bool) :
  frames w !! df = Some d →
  df_select df mask w
  = (inr (length (frames w)),
     mkWorld (frames w ++ [select_rows d mask]) (console w)).
Proof.
  intros H. unfold df_select. by rewrite (run_bind _ _ _ _ _ (run_deref _ _ _ H)).
Qed.

Lemma run_copy w df d :
  frames w !! df = Some d →
  df_copy df w = (inr (length (frames w)), mkWorld (frames w ++ [d]) (console w)).
Proof.
  intros H. unfold df_copy. by rewrite (run_bind _ _ _ _ _ (run_deref _ _ _ H)).
Qed.

Lemma world_eta w : mkWorld (frames w) (console w) = w.
Proof. by destruct w. Qed.

Lemma lookup_insert_frame w df d d' :
  frames w !! df = Some d → <[df := d']> (frames w) !! df = Some d'.
Proof. intros H. apply list_lookup_insert_eq. by eapply lookup_lt_Some. Qed.

(** One round of the Stage 2 loop. *)
Lemma run_winsorize_body w df d col :
  frames w !! df = Some d →
  winsorize_body df col w
  = (inr (), mkWorld (<[df := (winsorize_step d col).1]> (frames w))
                     (console w ++ (winsorize_step d col).2)).
Proof.
  intros H. unfold winsorize_body, winsorize_step.
  rewrite (run_bind _ _ _ _ _ (run_contains _ _ _ col H)).
  destruct (get_column d col) as [s|] eqn:Hs.
  - rewrite (has_column_Some _ _ _ Hs).
    rewrite (run_bind _ _ _ _ _ (run_getitem _ _ _ _ _ H Hs)).
    by rewrite (run_bind _ _ _ _ _ (run_setitem _ _ _ _ _ H)).
  - rewrite (has_column_None _ _ Hs). simpl.
    unfold print. by rewrite list_insert_id.
Qed.

(** One round of the Stage 3 loop. *)
Lemma run_impute_body w df d col :
  frames w !! df = Some d →
  impute_body df col w
  = (inr (), mkWorld (<[df := (impute_step d col).1]> (frames w))
                     (console w ++ (impute_step d col).2)).
Proof.
  intros H. unfold impute_body, impute_step.
  rewrite (run_bind _ _ _ _ _ (run_contains _ _ _ col H)).
  destruct (get_column d col) as [s|] eqn:Hs.
  - rewrite (has_column_Some _ _ _ Hs).
    rewrite (run_bind _ _ _ _ _ (run_getitem _ _ _ _ _ H Hs)).
    case_bool_decide.
    + rewrite (run_bind _ _ _ _ _ (run_getitem _ _ _ _ _ H Hs)).
      rewrite (run_bind _ _ _ _ _ (run_getitem _ _ _ _ _ H Hs)).
      rewrite (run_bind _ _ _ _ _ (run_setitem _ _ _ _ _ H)).
      by rewrite (run_bind _ _ _ _ _
        (run_getitem (mkWorld _ _) _ _ _ _
           (lookup_insert_frame _ _ _ _ H) (get_set_eq _ _ _))).
    + simpl. unfold mret, M_ret. by rewrite list_insert_id, app_nil_r, world_eta.
  - rewrite (has_column_None _ _ Hs). simpl.
    unfold print. by rewrite list_insert_id.
Qed.

(** A loop whose rounds rewrite the frame at [df] and print. *)
Lemma run_for_each (body : loc → string → M ())
    (step : DataFrame → string → DataFrame * list Diag) (cols : list string) :
  (∀ w df d col, frames w !! df = Some d →
     body df col w = (inr (), mkWorld (<[df := (step d col).1]> (frames w))
                                     (console w ++ (step d col).2))) →
  ∀ w df d, frames w !! df = Some d →
    for_each cols (body df) w
    = (inr (), mkWorld (<[df := (run_steps step cols d).1]> (frames w))
                       (console w ++ (run_steps step cols d).2)).
Proof.
  intros Hbody. induction cols as [|col cols IH]; intros w df d H; simpl.
  - unfold mret, M_ret. by rewrite list_insert_id, app_nil_r, world_eta.
  - rewrite (run_bind _ _ _ _ _ (Hbody _ _ _ col H)).
    destruct (step d col) as [d1 out1] eqn:Hstep. simpl.
    rewrite (IH _ _ d1) by (by eapply lookup_insert_frame).
    destruct (run_steps step cols d1) as [d2 out2]. simpl.
    by rewrite list_insert_insert_eq, <- app_assoc.
Qed.
End Execution.

Section Program.
Implicit Types w : World.
Implicit Types d : DataFrame.
Implicit Types df : loc.

Lemma insert_last {A} (l : list A) (x y : A) : <[length l := x]> (l ++ [y]) = l ++ [x].
Proof. rewrite insert_app_r_alt by done. by rewrite Nat.sub_diag. Qed.

Lemma lookup_last {A} (l : list A) (x : A) : (l ++ [x]) !! length l = Some x.
Proof. by apply list_lookup_middle. Qed.

Lemma lookup_last2 {A} (l : list A) (x y : A) :
  (l ++ [x; y]) !! length (l ++ [x]) = Some y.
Proof.
  replace (l ++ [x; y]) with ((l ++ [x]) ++ [y]) by (by rewrite <- app_assoc).
  apply lookup_last.
Qed.

Lemma run_remove_impossible w df d :
  frames w !! df = Some d →
  remove_impossible df w =
    match get_column d "loyer_mensuel" with
    | Some _ => (inr (length (frames w)),
                 mkWorld (frames w ++ [(stage1 d).1]) (console w ++ (stage1 d).2))
    | None => (inr df, w)
    end.
Proof.
  intros H. unfold remove_impossible, stage1.
  rewrite (run_bind _ _ _ _ _ (run_contains _ _ _ _ H)).
  destruct (get_column d "loyer_mensuel") as [s|] eqn:Hs.
  - rewrite (has_column_Some _ _ _ Hs).
    rewrite (run_bind _ _ _ _ _ (run_getitem _ _ _ _ _ H Hs)).
    case_bool_decide.
    + unfold print at 1. unfold mbind at 1, M_bind at 1.
      rewrite (run_bind _ _ _ _ _ (run_getitem (mkWorld _ _) _ _ _ _ H Hs)).
      rewrite (run_bind _ _ _ _ _ (run_getitem (mkWorld _ _) _ _ _ _ H Hs)).
      by rewrite (run_select (mkWorld _ _) _ _ _ H).
    + unfold mret at 1, M_ret at 1. unfold mbind at 1, M_bind at 1.
      rewrite (run_bind _ _ _ _ _ (run_getitem _ _ _ _ _ H Hs)).
      rewrite (run_bind _ _ _ _ _ (run_getitem _ _ _ _ _ H Hs)).
      rewrite (run_select _ _ _ _ H). simpl. by rewrite app_nil_r.
  - by rewrite (has_column_None _ _ Hs).
Qed.

(** Stages 2 and 3 on the frame at [df]. *)
Lemma run_stages_2_3 w df d :
  frames w !! df = Some d →
  (for_each cols_with_outliers (winsorize_body df);;
   for_each cols_to_impute (impute_body df);;
   mret df) w
  = (inr df,
     mkWorld (<[df := (stage3 (stage2 d).1).1]> (frames w))
             (console w ++ (stage2 d).2 ++ (stage3 (stage2 d).1).2)).
Proof.
  intros H.
  rewrite (run_bind _ _ _ _ _
    (run_for_each winsorize_body winsorize_step cols_with_outliers
       run_winsorize_body _ _ _ H)).
  fold (stage2 d).
  rewrite (run_bind _ _ _ _ _
    (run_for_each impute_body impute_step cols_to_impute
       run_impute_body (mkWorld _ _) _ _ (lookup_insert_frame _ _ _ _ H))).
  fold (stage3 (stage2 d).1). unfold mret, M_ret. simpl.
  by rewrite list_insert_insert_eq, <- app_assoc.
Qed.

Lemma clean_pure_unfold d :
  clean_pure d =
    ((stage3 (stage2 (stage1 d).1).1).1,
     (stage1 d).2 ++ (stage2 (stage1 d).1).2 ++ (stage3 (stage2 (stage1 d).1).1).2).
Proof.
  unfold clean_pure. destruct (stage1 d) as [d1 o1]. simpl.
  destruct (stage2 d1) as [d2 o2]. simpl. by destruct (stage3 d2).
Qed.

(** The program computes the three stages: from any state in which [df]
    refers to the frame [d], [clean_dataset df] returns normally, leaves
    every frame that was live before the call as it was, allocates new
    frames after them, returns a reference to [clean_frame d] and has
    printed [clean_log d]. *)
Lemma clean_dataset_run w df d :
  frames w !! df = Some d →
  ∃ (df' : loc) (extra : list DataFrame),
    clean_dataset df w
      = (inr df', mkWorld (frames w ++ extra) (console w ++ clean_log d)) ∧
    (frames w ++ extra) !! df' = Some (clean_frame d) ∧
    (length (frames w) ≤ df')%nat.
Proof.
  intros H. unfold clean_dataset, clean_frame, clean_log.
  rewrite clean_pure_unfold. simpl.
  rewrite (run_bind _ _ _ _ _ (run_copy _ _ _ H)).
  pose proof (lookup_last (frames w) d) as H1.
  pose proof (run_remove_impossible
    (mkWorld (frames w ++ [d]) (console w)) _ _ H1) as Hrm.
  destruct (get_column d "loyer_mensuel") as [s|] eqn:Hs;
    rewrite (run_bind _ _ _ _ _ Hrm); clear Hrm.
  - simpl frames. simpl console.
    pose proof (lookup_last (frames w ++ [d]) (stage1 d).1) as H2.
    rewrite (run_stages_2_3 (mkWorld _ _) _ _ H2). simpl frames. simpl console.
    rewrite insert_last.
    eexists _, [d; _]. split_and!.
    + f_equal. f_equal; [by rewrite <- app_assoc|by rewrite <- app_assoc].
    + apply lookup_last2.
    + rewrite length_app. lia.
  - assert (stage1 d = (d, [])) as Hst by (unfold stage1; by rewrite Hs).
    rewrite Hst. simpl.
    rewrite (run_stages_2_3 (mkWorld _ _) _ _ H1). simpl frames. simpl console.
    rewrite insert_last. eexists _, [_]. split_and!; [done|apply lookup_last|done].
Qed.

Lemma run_clean_eq d : run_clean d = inr (clean_frame d, clean_log d, d).
Proof.
  unfold run_clean.
  destruct (clean_dataset_run (mkWorld [d] []) 0%nat d eq_refl)
    as (df' & extra & Hrun & Hlook & _).
  simpl in Hrun, Hlook.
  rewrite (run_bind _ _ _ _ _ Hrun).
  rewrite (run_bind _ _ _ _ _ (run_deref (mkWorld _ _) _ _ Hlook)).
  by rewrite (run_bind _ _ _ _ _
    (run_deref (mkWorld (d :: extra) (clean_log d)) 0%nat d eq_refl)).
Qed.
End Program.

(** * The stages, column by column *)

Section Pipeline.
Implicit Types d : DataFrame.
Implicit Types col c : string.
Implicit Types step : DataFrame → string → DataFrame * list Diag.

Lemma fillna_no_missing (s : Series) fill :
  ¬ (0 < mask_sum (isna s))%nat → fillna s fill = s.
Proof.
  unfold mask_sum, isna, fillna. induction s as [|[|x] s IH]; intros H.
  - done.
  - exfalso. apply H. cbn [map is_nan]. rewrite filter_cons_True by done.
    simpl. lia.
  - cbn [map is_nan] in *. rewrite filter_cons_False in H by done.
    f_equal. by apply IH.
Qed.

Lemma winsorize_column_step :
  column_step winsorize_step (λ s, iqr_winsorize s k_default).
Proof.
  unfold winsorize_step. split_and!.
  - intros d col. destruct (get_column d col) eqn:E; simpl; [apply get_set_eq|done].
  - intros d col c Hne. destruct (get_column d col); simpl; [by apply get_set_ne|done].
  - intros d col. by destruct (get_column d col).
  - intros d d' col <-. by destruct (get_column d col).
Qed.

Lemma impute_column_step : column_step impute_step (λ s, fillna s (median s)).
Proof.
  unfold impute_step. split_and!.
  - intros d col. destruct (get_column d col) as [s|] eqn:E; simpl; [|done].
    case_bool_decide; simpl; [apply get_set_eq|].
    by rewrite E, fillna_no_missing.
  - intros d col c Hne. destruct (get_column d col); simpl; [|done].
    case_bool_decide; simpl; [by apply get_set_ne|done].
  - intros d col. destruct (get_column d col); [|done]. by case_bool_decide.
  - intros d d' col <-. destruct (get_column d col); [|done]. by case_bool_decide.
Qed.

Lemma run_steps_cons step col cols d :
  run_steps step (col :: cols) d =
    ((run_steps step cols (step d col).1).1,
     (step d col).2 ++ (run_steps step cols (step d col).1).2).
Proof.
  simpl. destruct (step d col) as [d1 o1]. simpl.
  by destruct (run_steps step cols d1).
Qed.

Lemma run_steps_get step f cols d c :
  column_step step f → NoDup cols →
  get_column (run_steps step cols d).1 c
  = if bool_decide (c ∈ cols) then f <$> get_column d c else get_column d c.
Proof.
  intros (Hown & Hother & _ & _) Hnd. revert d.
  induction Hnd as [|col cols Hnotin Hnd IH]; intros d.
  - by rewrite bool_decide_eq_false_2 by apply not_elem_of_nil.
  - rewrite run_steps_cons. simpl. rewrite IH.
    destruct (decide (c = col)) as [->|Hne].
    + rewrite (bool_decide_eq_false_2 _ Hnotin).
      rewrite bool_decide_eq_true_2 by (by left). apply Hown.
    + rewrite Hother by done.
      destruct (bool_decide_reflect (c ∈ cols)) as [Hin|Hnin].
      * by rewrite bool_decide_eq_true_2 by (by right).
      * rewrite bool_decide_eq_false_2; [done|].
        by intros [?|?]%elem_of_cons.
Qed.

Lemma run_steps_index step f cols d :
  column_step step f → index (run_steps step cols d).1 = index d.
Proof.
  intros (_ & _ & Hidx & _). revert d.
  induction cols as [|col cols IH]; intros d; [done|].
  rewrite run_steps_cons. simpl. by rewrite IH.
Qed.

(** What a round prints is printed by the loop, and depends only on the
    column as it was before the loop. *)
Lemma run_steps_log step f cols d col line :
  column_step step f → NoDup cols → col ∈ cols →
  line ∈ (step d col).2 → line ∈ (run_steps step cols d).2.
Proof.
  intros Hstep Hnd. revert d.
  induction Hnd as [|c cols Hnotin Hnd IH]; intros d Hin Hline.
  - by apply elem_of_nil in Hin.
  - rewrite run_steps_cons. simpl. apply elem_of_app.
    apply elem_of_cons in Hin as [->|Hin]; [by left|right].
    apply IH; [done|].
    destruct Hstep as (_ & Hother & _ & Hlog).
    rewrite (Hlog _ d); [done|]. apply Hother. by intros ->.
Qed.

Lemma cols_with_outliers_NoDup : NoDup cols_with_outliers.
Proof. by apply (bool_decide_unpack _). Qed.

Lemma cols_to_impute_NoDup : NoDup cols_to_impute.
Proof. by apply (bool_decide_unpack _). Qed.

Lemma policy_lists_disjoint col :
  col ∈ cols_with_outliers → col ∈ cols_to_impute → False.
Proof.
  unfold cols_with_outliers, cols_to_impute.
  rewrite !elem_of_cons, !elem_of_nil. intros H1 H2.
  destruct H1 as [->|[->|[->|[->|[]]]]];
    destruct H2 as [?|[?|[?|[]]]]; discriminate.
Qed.

Lemma rent_not_outlier : "loyer_mensuel"%string ∉ cols_with_outliers.
Proof. by apply (bool_decide_unpack _). Qed.

Lemma rent_imputed : "loyer_mensuel"%string ∈ cols_to_impute.
Proof. by apply (bool_decide_unpack _). Qed.

Lemma clean_frame_unfold d : clean_frame d = (stage3 (after_stage2 d)).1.
Proof. unfold clean_frame, after_stage2, after_stage1. by rewrite clean_pure_unfold. Qed.

Lemma clean_log_unfold d :
  clean_log d
  = (stage1 d).2 ++ (stage2 (after_stage1 d)).2 ++ (stage3 (after_stage2 d)).2.
Proof. unfold clean_log, after_stage2, after_stage1. by rewrite clean_pure_unfold. Qed.

Lemma after_stage1_get d col :
  get_column (after_stage1 d) col = rows_kept d <$> get_column d col.
Proof.
  unfold after_stage1, stage1, rows_kept.
  destruct (get_column d "loyer_mensuel") as [rent|]; simpl.
  - apply get_select_rows.
  - by destruct (get_column d col).
Qed.

Lemma after_stage1_index d :
  index (after_stage1 d)
  = match get_column d "loyer_mensuel" with
    | Some rent => select (keep_mask rent) (index d)
    | None => index d
    end.
Proof. unfold after_stage1, stage1. by destruct (get_column d "loyer_mensuel"). Qed.

Lemma after_stage2_get d col :
  get_column (after_stage2 d) col
  = if bool_decide (col ∈ cols_with_outliers)
    then (λ s, iqr_winsorize s k_default) <$> get_column (after_stage1 d) col
    else get_column (after_stage1 d) col.
Proof.
  unfold after_stage2, stage2.
  apply run_steps_get; [apply winsorize_column_step|apply cols_with_outliers_NoDup].
Qed.

Lemma clean_frame_get_stage2 d col :
  get_column (clean_frame d) col
  = if bool_decide (col ∈ cols_to_impute)
    then (λ s, fillna s (median s)) <$> get_column (after_stage2 d) col
    else get_column (after_stage2 d) col.
Proof.
  rewrite clean_frame_unfold. unfold stage3.
  apply run_steps_get; [apply impute_column_step|apply cols_to_impute_NoDup].
Qed.

Lemma clean_frame_index d : index (clean_frame d) = index (after_stage1 d).
Proof.
  rewrite clean_frame_unfold. unfold stage3, after_stage2, stage2.
  rewrite (run_steps_index _ _ _ _ impute_column_step).
  by rewrite (run_steps_index _ _ _ _ winsorize_column_step).
Qed.

(** Every column of the result is the treatment of its own raw column on
    the rows Stage 1 keeps. *)
Lemma clean_frame_get d col :
  get_column (clean_frame d) col
  = (λ s, treat col (rows_kept d s)) <$> get_column d col.
Proof.
  rewrite clean_frame_get_stage2, after_stage2_get, after_stage1_get.
  unfold treat.
  destruct (bool_decide_reflect (col ∈ cols_with_outliers)) as [Ho|Ho];
    destruct (bool_decide_reflect (col ∈ cols_to_impute)) as [Hi|Hi];
    try (by destruct (get_column d col)).
  exfalso. by eapply policy_lists_disjoint.
Qed.
End Pipeline.

(** * Median imputation *)

Section Imputation.
Implicit Types s : Series.
Implicit Types d : DataFrame.

Lemma fillna_Num s (m : Qc) :
  fillna s (Num m) = map (λ v, match v with NaN => Num m | Num x => Num x end) s.
Proof. unfold fillna. apply map_ext. by intros [|x]. Qed.

Lemma fillna_NaN s : fillna s NaN = s.
Proof.
  unfold fillna. rewrite <- (map_id s) at 2. apply map_ext. by intros [|x].
Qed.

Lemma count_missing_filled s (m : Qc) : count_missing (fillna s (Num m)) = 0%nat.
Proof.
  unfold count_missing, mask_sum, isna, fillna.
  induction s as [|[|x] s IH]; [done|..]; cbn [map is_nan];
    by rewrite filter_cons_False.
Qed.

Lemma count_missing_all s : Forall (λ v, v = NaN) s → count_missing s = length s.
Proof.
  unfold count_missing, mask_sum, isna.
  induction 1 as [|v s -> _ IH]; [done|]. cbn [map is_nan].
  rewrite filter_cons_True by done. simpl. by rewrite IH.
Qed.

Lemma impute_get d col :
  col ∈ cols_to_impute →
  get_column (clean_frame d) col
  = (λ s, fillna s (median s)) <$> get_column (after_stage2 d) col.
Proof.
  intros Hin. rewrite clean_frame_get_stage2. by rewrite bool_decide_eq_true_2.
Qed.

Lemma impute_log d col line :
  col ∈ cols_to_impute →
  line ∈ (impute_step (after_stage2 d) col).2 → line ∈ clean_log d.
Proof.
  intros Hin Hline. rewrite clean_log_unfold, !elem_of_app. right. right.
  unfold stage3.
  by eapply run_steps_log; [apply impute_column_step|apply cols_to_impute_NoDup|..].
Qed.
End Imputation.

(** C3, as stated, fails: a credit-score column that holds no value at all
    is still entirely missing after Stage 3. *)
Lemma imputation_incomplete :
  "score_credit"%string ∈ cols_to_impute ∧
  has_column frame_score_empty "score_credit" = true ∧
  run_clean frame_score_empty
    = inr (frame_score_empty,
           [WarnNoWinsor "taille"; WarnNoWinsor "poids";
            WarnNoWinsor "revenu_estime_mois"; WarnNoWinsor "montant_pret";
            WarnNoImpute "historique_credits";
            InfoImputed "score_credit" 2 NaN 2;
            WarnNoImpute "loyer_mensuel"],
           frame_score_empty) ∧
  get_column (clean_frame frame_score_empty) "score_credit" = Some [NaN; NaN] ∧
  count_missing [NaN; NaN] = 2%nat.
Proof. split_and!; by_computation. Qed.

(** C3, amended.  After Stage 3 every column named in [cols_to_impute]
    that is present and holds at least one value after Stage 2 has no
    missing cell: each missing cell holds the median of the column's
    post-Stage-2 values, the other cells are unchanged, and the line
    printed reports the number imputed and zero remaining.  The column
    [10, 20, missing, 40] becomes [10, 20, 20, 40], one value imputed. *)
Theorem imputation_complete (d : DataFrame) (col : string) (s : Series) :
  col ∈ cols_to_impute →
  get_column (after_stage2 d) col = Some s →
  dropna s ≠ [] →
  (∃ m : Qc,
     median s = Num m ∧
     get_column (clean_frame d) col
       = Some (map (λ v, match v with NaN => Num m | Num x => Num x end) s) ∧
     count_missing (map (λ v, match v with NaN => Num m | Num x => Num x end) s) = 0%nat ∧
     ((0 < count_missing s)%nat →
      InfoImputed col (count_missing s) (Num m) 0 ∈ clean_log d)) ∧
  run_clean frame_score_gap
    = inr (mkDF [0; 1; 2; 3]%nat
             [("score_credit"%string, [vz 10; vz 20; vz 20; vz 40])],
           [WarnNoWinsor "taille"; WarnNoWinsor "poids";
            WarnNoWinsor "revenu_estime_mois"; WarnNoWinsor "montant_pret";
            WarnNoImpute "historique_credits";
            InfoImputed "score_credit" 1 (vz 20) 0;
            WarnNoImpute "loyer_mensuel"],
           frame_score_gap).
Proof.
  intros Hin Hs Hne. split; [|by_computation].
  exists (median_sorted (sort_values (dropna s))).
  assert (Hm : median s = Num (median_sorted (sort_values (dropna s))))
    by (by apply median_Num).
  split_and!.
  - done.
  - rewrite impute_get, Hs by done. simpl. by rewrite Hm, fillna_Num.
  - rewrite <- fillna_Num. apply count_missing_filled.
  - intros Hpos. apply (impute_log d col); [done|].
    unfold impute_step. rewrite Hs.
    rewrite bool_decide_eq_true_2 by done. simpl.
    apply list_elem_of_singleton. rewrite Hm.
    f_equal. symmetry. apply count_missing_filled.
Qed.

Lemma imputation_complete_witness :
  ∃ m : Qc,
    median [vz 10; vz 20; NaN; vz 40] = Num m ∧
    get_column (clean_frame frame_score_gap) "score_credit"
      = Some (map (λ v, match v with NaN => Num m | Num x => Num x end)
                [vz 10; vz 20; NaN; vz 40]) ∧
    count_missing (map (λ v, match v with NaN => Num m | Num x => Num x end)
                     [vz 10; vz 20; NaN; vz 40]) = 0%nat ∧
    ((0 < count_missing [vz 10; vz 20; NaN; vz 40])%nat →
     InfoImputed "score_credit" (count_missing [vz 10; vz 20; NaN; vz 40]) (Num m) 0
       ∈ clean_log frame_score_gap).
Proof.
  refine (proj1 (imputation_complete frame_score_gap "score_credit"
                   [vz 10; vz 20; NaN; vz 40] _ _ _)).
  - by_computation.
  - by_computation.
  - done.
Defined.

(** C10. A column named in [cols_to_impute] that is present but holds no
    value after Stages 1 and 2 is left as it is by Stage 3: its median is
    the missing marker, nothing is filled, every cell is still missing and
    the number of missing cells is unchanged. *)
Theorem imputation_all_missing (d : DataFrame) (col : string) (s : Series) :
  col ∈ cols_to_impute →
  get_column (after_stage2 d) col = Some s →
  dropna s = [] →
  median s = NaN ∧
  fillna s (median s) = s ∧
  get_column (clean_frame d) col = Some s ∧
  Forall (λ v, v = NaN) s ∧
  count_missing s = length s ∧
  ((0 < length s)%nat →
   InfoImputed col (length s) NaN (length s) ∈ clean_log d).
Proof.
  intros Hin Hs Hnil.
  assert (Hm : median s = NaN) by (by apply median_NaN).
  assert (Hall : Forall (λ v, v = NaN) s) by (by apply dropna_nil).
  assert (Hcount : count_missing s = length s) by (by apply count_missing_all).
  split_and!; try done.
  - by rewrite Hm, fillna_NaN.
  - rewrite impute_get, Hs by done. simpl. by rewrite Hm, fillna_NaN.
  - intros Hpos. apply (impute_log d col); [done|].
    unfold impute_step. rewrite Hs. fold (count_missing s). rewrite Hcount.
    rewrite bool_decide_eq_true_2 by done. simpl.
    apply list_elem_of_singleton. rewrite Hm, fillna_NaN.
    fold (count_missing s). by rewrite Hcount.
Qed.

Lemma imputation_all_missing_witness :
  get_column (clean_frame frame_score_empty) "score_credit" = Some [NaN; NaN].
Proof.
  refine (proj1 (proj2 (proj2
    (imputation_all_missing frame_score_empty "score_credit" [NaN; NaN] _ _ _)))).
  - by_computation.
  - by_computation.
  - done.
Defined.

(** * The business rule *)

Section BusinessRule.
Implicit Types s rent : Series.
Implicit Types d : DataFrame.

Lemma keep_cell_negb v : is_nan v || v_ge v 0 = negb (v_lt v 0).
Proof.
  destruct v as [|x]; [done|]. simpl.
  destruct (Qclt_le_dec x 0) as [Hlt|Hle].
  - rewrite (bool_decide_eq_true_2 _ Hlt).
    apply bool_decide_eq_false_2. by apply Qclt_not_le.
  - rewrite (bool_decide_eq_true_2 _ Hle). symmetry. apply negb_true_iff.
    apply bool_decide_eq_false_2. by apply Qcle_not_lt.
Qed.

Lemma keep_mask_cells s : keep_mask s = map (λ v, negb (v_lt v 0)) s.
Proof.
  unfold keep_mask, mask_or, isna, series_ge.
  induction s as [|v s IH]; simpl; [done|]. by rewrite keep_cell_negb, IH.
Qed.

Lemma keep_mask_length s : length (keep_mask s) = length s.
Proof. rewrite keep_mask_cells. apply length_map. Qed.

Lemma mask_sum_cons (b : bool) (m : list bool) :
  mask_sum (b :: m) = ((if b then 1 else 0) + mask_sum m)%nat.
Proof.
  unfold mask_sum. destruct b.
  - by rewrite filter_cons_True.
  - by rewrite filter_cons_False.
Qed.

Lemma keep_mask_sum s :
  (mask_sum (keep_mask s) + mask_sum (series_lt s 0) = length s)%nat.
Proof.
  rewrite keep_mask_cells. unfold series_lt.
  induction s as [|v s IH]; [done|]. cbn [map length].
  rewrite !mask_sum_cons. destruct (v_lt v 0); simpl; lia.
Qed.

Lemma series_lt_count s : mask_sum (series_lt s 0) = count_negative s.
Proof.
  unfold series_lt, count_negative.
  induction s as [|[|x] s IH]; [done|..]; cbn [map dropna v_lt];
    rewrite mask_sum_cons; [done|].
  rewrite filter_cons. case_bool_decide.
  - rewrite decide_True by done. simpl. by rewrite IH.
  - rewrite decide_False by done. by rewrite IH.
Qed.

Lemma select_keep_nonneg s : Forall missing_or_nonneg (select (keep_mask s) s).
Proof.
  rewrite keep_mask_cells.
  induction s as [|[|x] s IH]; [constructor|..]; simpl.
  - by constructor.
  - case_bool_decide as Hlt; simpl; [done|].
    constructor; [|done]. simpl. by apply Qcnot_lt_le.
Qed.

Lemma select_lookup {A} (mask : list bool) (l : list A) i (x : A) :
  mask !! i = Some true → l !! i = Some x → x ∈ select mask l.
Proof.
  revert l i. induction mask as [|b mask IH]; intros [|y l] [|i]; simpl; try done.
  - intros [= ->] [= ->]. by left.
  - intros Hm Hl. destruct b; [right|]; by eapply IH.
Qed.

Lemma dropna_nonneg s : Forall missing_or_nonneg s → Forall (λ x, 0 ≤ x) (dropna s).
Proof.
  induction 1 as [|[|x] s Hx _ IH]; simpl; [constructor|done|by constructor].
Qed.

Lemma nth_nonneg (xs : list Qc) i : Forall (λ x, 0 ≤ x) xs → 0 ≤ nth i xs 0.
Proof.
  intros Hall. revert i. induction Hall as [|x xs Hx _ IH]; intros [|i]; simpl;
    done.
Qed.

Lemma half_sum_nonneg (a b : Qc) : 0 ≤ a → 0 ≤ b → 0 ≤ (a + b) / qz 2.
Proof.
  intros Ha Hb. unfold Qcdiv. apply Qcmult_nonneg_nonneg.
  - by apply Qcplus_nonneg_nonneg.
  - by apply Qclt_le_weak, Qcinv_pos.
Qed.

Lemma median_nonneg s : Forall missing_or_nonneg s → missing_or_nonneg (median s).
Proof.
  intros Hall. unfold median.
  destruct (dropna s) as [|x xs] eqn:E; [done|]. simpl.
  assert (Hs : Forall (λ y, 0 ≤ y) (sort_values (x :: xs))).
  { rewrite sort_values_perm, <- E. by apply dropna_nonneg. }
  unfold median_sorted. destruct (Nat.even _).
  - apply half_sum_nonneg; by apply nth_nonneg.
  - by apply nth_nonneg.
Qed.

Lemma fillna_nonneg s fill :
  Forall missing_or_nonneg s → missing_or_nonneg fill →
  Forall missing_or_nonneg (fillna s fill).
Proof.
  intros Hall Hfill. unfold fillna. apply Forall_forall.
  intros v [u [-> Hu]]%list_elem_of_fmap.
  destruct u as [|x]; simpl; [done|].
  rewrite Forall_forall in Hall. by apply (Hall (Num x)).
Qed.

Lemma treat_rent s : treat "loyer_mensuel" s = fillna s (median s).
Proof. done. Qed.
End BusinessRule.

(** C4. When the frame has the rent column, every rent of the result is
    missing or at least zero; the rows of the result are the input rows
    whose rent is missing or not negative, so the row count drops by
    exactly the number of rows with a negative rent, and every row with a
    missing rent is kept. *)
Theorem business_rule_enforced (d : DataFrame) (rent : Series) :
  get_column d "loyer_mensuel" = Some rent →
  (∃ rent' : Series,
     get_column (clean_frame d) "loyer_mensuel" = Some rent' ∧
     Forall missing_or_nonneg rent') ∧
  index (clean_frame d) = select (keep_mask rent) (index d) ∧
  (nrows (clean_frame d) ≤ nrows d)%nat ∧
  (well_formed d →
   nrows (clean_frame d) = (nrows d - count_negative rent)%nat) ∧
  (∀ i label, rent !! i = Some NaN → index d !! i = Some label →
     label ∈ index (clean_frame d)).
Proof.
  intros Hrent.
  assert (Hidx : index (clean_frame d) = select (keep_mask rent) (index d))
    by (by rewrite clean_frame_index, after_stage1_index, Hrent).
  split_and!.
  - eexists. split.
    + rewrite clean_frame_get, Hrent. simpl. by rewrite treat_rent.
    + unfold rows_kept. rewrite Hrent.
      pose proof (select_keep_nonneg rent) as Hkept.
      apply fillna_nonneg; [done|by apply median_nonneg].
  - done.
  - unfold nrows. rewrite Hidx. apply select_length_le.
  - intros Hwf. pose proof (well_formed_column _ _ _ Hwf Hrent) as Hlen.
    unfold nrows in *. rewrite Hidx.
    rewrite select_length by (by rewrite keep_mask_length).
    pose proof (keep_mask_sum rent) as Hsum.
    rewrite series_lt_count in Hsum. lia.
  - intros i label Hi Hlabel. rewrite Hidx.
    apply (select_lookup _ _ i); [|done].
    rewrite keep_mask_cells, lookup_map, Hi. done.
Qed.

Lemma business_rule_enforced_witness :
  nrows (clean_frame frame_rents) = (nrows frame_rents - 1)%nat.
Proof.
  refine (proj1 (proj2 (proj2 (proj2
    (business_rule_enforced frame_rents [vz 500; vz (-20); NaN; vz 700] _)))) _).
  - reflexivity.
  - repeat constructor.
Defined.

(** C5. A column named in neither policy list (the rent column is in
    [cols_to_impute]) comes out exactly as it came in, on the rows that
    survive Stage 1: all rows when there is no rent column, the rows with a
    missing or non-negative rent otherwise. *)
Theorem other_columns_pass_through (d : DataFrame) (col : string) :
  col ∉ cols_with_outliers → col ∉ cols_to_impute → col ≠ "loyer_mensuel"%string →
  get_column (clean_frame d) col
  = match get_column d "loyer_mensuel" with
    | Some rent => select (keep_mask rent) <$> get_column d col
    | None => get_column d col
    end.
Proof.
  intros Ho Hi _. rewrite clean_frame_get. unfold treat, rows_kept.
  rewrite !bool_decide_eq_false_2 by done.
  destruct (get_column d "loyer_mensuel"); by destruct (get_column d col).
Qed.

Lemma other_columns_pass_through_witness :
  get_column (clean_frame frame_rents) "age" = Some [vz 30; vz 52; vz 63].
Proof.
  rewrite (other_columns_pass_through frame_rents "age").
  - reflexivity.
  - by apply (bool_decide_unpack _).
  - by apply (bool_decide_unpack _).
  - done.
Defined.

(** C8. Whatever columns the frame has, the cleaner raises no exception.
    A column that is absent stays absent, and its stage is skipped: the
    skip line is printed for an absent outlier or imputation column, and
    without the rent column no row is removed and every column is just
    treated according to the policy lists.  A column of the result depends
    only on the same raw column and on the rent column, so it is the same
    on any frame that agrees on these two, whichever other columns that
    frame has or lacks. *)
Theorem absent_columns_skipped (d : DataFrame) :
  run_clean d = inr (clean_frame d, clean_log d, d) ∧
  (∀ col, get_column d col = None → get_column (clean_frame d) col = None) ∧
  (∀ col, col ∈ cols_with_outliers → get_column d col = None →
     WarnNoWinsor col ∈ clean_log d) ∧
  (∀ col, col ∈ cols_to_impute → get_column d col = None →
     WarnNoImpute col ∈ clean_log d) ∧
  (get_column d "loyer_mensuel" = None →
     index (clean_frame d) = index d ∧
     ∀ col, get_column (clean_frame d) col = treat col <$> get_column d col) ∧
  (∀ d' col,
     get_column d' col = get_column d col →
     get_column d' "loyer_mensuel" = get_column d "loyer_mensuel" →
     get_column (clean_frame d') col = get_column (clean_frame d) col).
Proof.
  split_and!.
  - apply run_clean_eq.
  - intros col Hnone. by rewrite clean_frame_get, Hnone.
  - intros col Hin Hnone. rewrite clean_log_unfold, !elem_of_app. right. left.
    unfold stage2.
    eapply run_steps_log;
      [apply winsorize_column_step|apply cols_with_outliers_NoDup|done|].
    unfold winsorize_step. rewrite after_stage1_get, Hnone. simpl. by left.
  - intros col Hin Hnone. apply (impute_log d col); [done|].
    unfold impute_step. rewrite after_stage2_get, after_stage1_get, Hnone.
    destruct (bool_decide _); simpl; by left.
  - intros Hnone. split.
    + by rewrite clean_frame_index, after_stage1_index, Hnone.
    + intros col. rewrite clean_frame_get. unfold rows_kept. by rewrite Hnone.
  - intros d' col Hcol Hrent. rewrite !clean_frame_get, Hcol.
    unfold rows_kept. by rewrite Hrent.
Qed.

(** C9. [clean_dataset] works on a copy: after the call the frame its
    argument refers to, and every other frame that was live, is as it was
    before; the result is a new frame.  In [main] the raw frame is
    unchanged after the call. *)
Theorem input_frame_unchanged (w : World) (df : loc) (d : DataFrame) :
  frames w !! df = Some d →
  (∃ (df_clean : loc) (w' : World),
     clean_dataset df w = (inr df_clean, w') ∧
     frames w' !! df = Some d ∧
     (∀ l d0, frames w !! l = Some d0 → frames w' !! l = Some d0) ∧
     df_clean ≠ df ∧
     frames w' !! df_clean = Some (clean_frame d)) ∧
  run_clean d = inr (clean_frame d, clean_log d, d).
Proof.
  intros H. split; [|apply run_clean_eq].
  destruct (clean_dataset_run w df d H) as (df' & extra & Hrun & Hlook & Hfresh).
  exists df', (mkWorld (frames w ++ extra) (console w ++ clean_log d)).
  assert (Hold : ∀ l d0, frames w !! l = Some d0 → (frames w ++ extra) !! l = Some d0).
  { intros l d0 Hl. rewrite lookup_app_l; [done|]. by eapply lookup_lt_Some. }
  split_and!; simpl; auto.
  apply lookup_lt_Some in H. lia.
Qed.

Lemma input_frame_unchanged_witness :
  run_clean frame_rents = inr (clean_frame frame_rents, clean_log frame_rents, frame_rents).
Proof.
  exact (proj2 (input_frame_unchanged (mkWorld [frame_rents] []) 0%nat frame_rents eq_refl)).
Defined.


(** * Further properties of the Outlier Bounder *)

Section BounderExtras.
Implicit Types s column : Series.
Implicit Types k : Qc.

(** A quantile lies between two cells of the column. *)
Lemma quantile_between s (q v : Qc) :
  0 ≤ q → q ≤ 1 → quantile s q = Num v →
  ∃ a b : Qc, Num a ∈ s ∧ Num b ∈ s ∧ a ≤ v ∧ v ≤ b.
Proof.
  intros Hq0 Hq1 Hv.
  destruct (decide (dropna s = [])) as [Hnil|Hne].
  { by rewrite quantile_NaN in Hv. }
  rewrite quantile_Num in Hv by done. injection Hv as <-.
  remember (sort_values (dropna s)) as xs eqn:Exs.
  assert (Hxs : xs ≠ []) by (subst xs; intros H; by apply sort_values_nil in H).
  assert (Hlen : (0 < length xs)%nat) by (destruct xs; [done|simpl; lia]).
  destruct (quantile_sorted_unfold xs q Hxs Hq0 Hq1)
    as (i & g & Hi & Hg0 & Hg1 & _ & ->).
  assert (Hin : ∀ j, (j ≤ length xs - 1)%nat → Num (nth j xs 0) ∈ s).
  { intros j Hj. apply elem_of_dropna.
    rewrite <- (sort_values_perm (dropna s)), <- Exs. apply nth_elem_of_lt. lia. }
  assert (Hsorted : StronglySorted Qcle xs) by (subst xs; apply sort_values_sorted).
  exists (nth i xs 0), (nth (Nat.min (i + 1) (length xs - 1)) xs 0).
  split_and!; [apply Hin; lia|apply Hin; lia|..];
    apply lerp_between; try done; try (by apply Qclt_le_weak);
    apply sorted_nth_le; try done; lia.
Qed.

Lemma clamp_Num_cases (lo up x : Qc) :
  lo ≤ up →
  ∃ y : Qc, clamp lo up (Num x) = Num y ∧ lo ≤ y ∧ y ≤ up ∧
    ((y = x) ∨ (y = lo ∧ x ≤ lo) ∨ (y = up ∧ up ≤ x)).
Proof.
  intros Hlu. rewrite <- clamp_cases by done.
  destruct (bool_decide_reflect (x ≤ up)) as [Hxu|Hxu].
  - destruct (bool_decide_reflect (lo ≤ x)) as [Hlx|Hlx].
    + exists x. split_and!; auto.
    + exists lo. split_and!; auto. right. left. split; [done|].
      by destruct (Qc_le_total x lo).
  - exists up. split_and!; auto. right. right. split; [done|].
    by destruct (Qc_le_total up x).
Qed.

Lemma clamp_mono (lo up x y : Qc) :
  lo ≤ up → x ≤ y →
  ∃ x' y' : Qc, clamp lo up (Num x) = Num x' ∧ clamp lo up (Num y) = Num y' ∧ x' ≤ y'.
Proof.
  intros Hlu Hxy.
  destruct (clamp_Num_cases lo up x Hlu) as (x' & -> & Hx1 & Hx2 & Hx).
  destruct (clamp_Num_cases lo up y Hlu) as (y' & -> & Hy1 & Hy2 & Hy).
  exists x', y'. split_and!; [done..|].
  destruct Hx as [->|[[-> Hx]|[-> Hx]]]; [|done|].
  - destruct Hy as [->|[[-> Hy]|[-> Hy]]]; [done| |done].
    by trans y.
  - destruct Hy as [->|[[-> Hy]|[-> Hy]]]; [by trans x| |done].
    trans x; [done|]. by trans y.
Qed.

(** What [iqr_winsorize] does to a cell, for any [k]: nothing on a column
    without data, a clamp between the ordered thresholds otherwise. *)
Lemma iqr_winsorize_map s k :
  (iqr_bounds s k = (NaN, NaN) ∧ iqr_winsorize s k = s) ∨
  (∃ lo up : Qc,
     iqr_bounds s k = (Num lo, Num up) ∧
     py_min lo up ≤ py_max lo up ∧
     iqr_winsorize s k = map (clamp (py_min lo up) (py_max lo up)) s).
Proof.
  destruct (decide (dropna s = [])) as [Hnil|Hne].
  - left. split; [by apply iqr_bounds_NaN|by apply iqr_winsorize_no_data].
  - right. destruct (iqr_bounds_Num s k Hne) as (q1 & q3 & _ & _ & Hb).
    eexists _, _. split_and!; [done|apply py_min_max_le|].
    unfold iqr_winsorize. by rewrite Hb, clip_Num.
Qed.

Lemma dropna_Permutation s s' : s ≡ₚ s' → dropna s ≡ₚ dropna s'.
Proof.
  induction 1 as [|[|x] s s' _ IH|[|x] [|y] s|s1 s2 s3 _ IH1 _ IH2]; simpl;
    try done.
  - by constructor.
  - by constructor.
  - by etrans.
Qed.

Lemma sort_values_Permutation (xs ys : list Qc) :
  xs ≡ₚ ys → sort_values xs = sort_values ys.
Proof.
  intros Hp. apply (StronglySorted_unique Qcle); try apply sort_values_sorted.
  by rewrite !sort_values_perm.
Qed.

Lemma quantile_same_data s s' (q : Qc) :
  dropna s ≡ₚ dropna s' → quantile s q = quantile s' q.
Proof.
  intros Hp.
  destruct (decide (dropna s = [])) as [Hnil|Hne].
  - rewrite Hnil in Hp. apply Permutation_nil_l in Hp.
    by rewrite !quantile_NaN.
  - assert (dropna s' ≠ []) as Hne'.
    { intros Hnil. rewrite Hnil in Hp. by apply Permutation_nil_r in Hp. }
    rewrite !quantile_Num by done. by rewrite (sort_values_Permutation _ _ Hp).
Qed.
End BounderExtras.

(** X1. On a column with at least one value and for [k] not negative, the
    two thresholds enclose the quartiles: lower ≤ Q1 ≤ Q3 ≤ upper, with Q1
    and Q3 between two cells of the column. *)
Theorem bounds_enclose_quartiles (column : Series) (k : Qc) :
  0 ≤ k → dropna column ≠ [] →
  ∃ q1 q3 lower upper : Qc,
    quantile column (qfrac 1 4) = Num q1 ∧
    quantile column (qfrac 3 4) = Num q3 ∧
    iqr_bounds column k = (Num lower, Num upper) ∧
    lower ≤ q1 ∧ q1 ≤ q3 ∧ q3 ≤ upper ∧
    (∃ a : Qc, Num a ∈ column ∧ a ≤ q1) ∧
    (∃ b : Qc, Num b ∈ column ∧ q3 ≤ b).
Proof.
  intros Hk Hne.
  destruct (iqr_bounds_Num column k Hne) as (q1 & q3 & H1 & H3 & Hb).
  pose proof (quartiles_ordered column q1 q3 H1 H3) as H13.
  destruct (quantile_between column (qfrac 1 4) q1) as (a & _ & Ha & _ & Ha' & _);
    [done..|].
  destruct (quantile_between column (qfrac 3 4) q3) as (_ & b & _ & Hb' & _ & Hb'');
    [done..|].
  exists q1, q3, (q1 - k * (q3 - q1)), (q3 + k * (q3 - q1)).
  split_and!; try done.
  - qc_nra.
  - qc_nra.
  - by exists a.
  - by exists b.
Qed.

Lemma bounds_enclose_quartiles_witness :
  ∃ q1 q3 lower upper : Qc,
    quantile [vz 1; NaN; vz 9] (qfrac 1 4) = Num q1 ∧
    quantile [vz 1; NaN; vz 9] (qfrac 3 4) = Num q3 ∧
    iqr_bounds [vz 1; NaN; vz 9] (qfrac 3 2) = (Num lower, Num upper) ∧
    lower ≤ q1 ∧ q1 ≤ q3 ∧ q3 ≤ upper ∧
    (∃ a : Qc, Num a ∈ [vz 1; NaN; vz 9] ∧ a ≤ q1) ∧
    (∃ b : Qc, Num b ∈ [vz 1; NaN; vz 9] ∧ q3 ≤ b).
Proof. apply (bounds_enclose_quartiles [vz 1; NaN; vz 9] (qfrac 3 2)); done. Defined.

(** X2. For [k] not negative every value of the result lies within the
    thresholds computed from the input, and between two values of the
    input: winsorising never produces a value beyond the observed range. *)
Theorem bounder_output_range (column : Series) (k : Qc) (i : nat) (y : Qc) :
  0 ≤ k → iqr_winsorize column k !! i = Some (Num y) →
  (∃ lower upper : Qc,
     iqr_bounds column k = (Num lower, Num upper) ∧ lower ≤ y ∧ y ≤ upper) ∧
  (∃ a b : Qc, Num a ∈ column ∧ Num b ∈ column ∧ a ≤ y ∧ y ≤ b).
Proof.
  intros Hk Hy.
  destruct (decide (dropna column = [])) as [Hnil|Hne].
  { rewrite iqr_winsorize_no_data in Hy by done.
    by apply dropna_lookup_Num in Hy. }
  destruct (bounds_enclose_quartiles column k Hk Hne)
    as (q1 & q3 & lower & upper & H1 & H3 & Hb & Hl & H13 & Hu & (a & Ha & Ha') & (b & Hb' & Hb'')).
  assert (Hlu : lower ≤ upper) by (trans q1; [done|by trans q3]).
  unfold iqr_winsorize in Hy. rewrite Hb, clip_ordered in Hy by done.
  rewrite lookup_map in Hy.
  destruct (column !! i) as [[|x]|] eqn:Hx; try done.
  assert (Hxin : Num x ∈ column) by (by eapply list_elem_of_lookup_2).
  destruct (clamp_Num_cases lower upper x Hlu) as (y' & Hc & Hy1 & Hy2 & Hcase).
  change (Some (clamp lower upper (Num x)) = Some (Num y)) in Hy.
  rewrite Hc in Hy. injection Hy as ->.
  split; [by exists lower, upper|].
  destruct Hcase as [->|[[-> Hxl]|[-> Hxu]]].
  - by exists x, x.
  - exists x, b. split_and!; try done. trans q1; [done|by trans q3].
  - exists a, x. split_and!; try done. trans q3; [by trans q1|done].
Qed.

Lemma bounder_output_range_witness :
  ∃ a b : Qc, Num a ∈ [vz 0; vz 100; vz 100; vz 100] ∧
              Num b ∈ [vz 0; vz 100; vz 100; vz 100] ∧
              a ≤ qfrac 75 2 ∧ qfrac 75 2 ≤ b.
Proof.
  refine (proj2 (bounder_output_range [vz 0; vz 100; vz 100; vz 100]
                   (qfrac 3 2) 0 (qfrac 75 2) _ _)).
  - done.
  - by_computation.
Defined.

(** X3. Whatever [k] is, the Outlier Bounder keeps the order of the
    values: a cell that is not above another one before is not above it
    after. *)
Theorem bounder_keeps_order (column : Series) (k : Qc) (i j : nat) (x y : Qc) :
  column !! i = Some (Num x) → column !! j = Some (Num y) → x ≤ y →
  ∃ x' y' : Qc,
    iqr_winsorize column k !! i = Some (Num x') ∧
    iqr_winsorize column k !! j = Some (Num y') ∧
    x' ≤ y'.
Proof.
  intros Hi Hj Hxy.
  destruct (iqr_winsorize_map column k) as [[_ ->]|(lo & up & _ & Hlu & ->)].
  - by exists x, y.
  - destruct (clamp_mono _ _ x y Hlu Hxy) as (x' & y' & Hx' & Hy' & Hle).
    exists x', y'. rewrite !lookup_map, Hi, Hj.
    change (Some (clamp (py_min lo up) (py_max lo up) (Num x)) = Some (Num x') ∧
            Some (clamp (py_min lo up) (py_max lo up) (Num y)) = Some (Num y') ∧
            x' ≤ y').
    by rewrite Hx', Hy'.
Qed.

Lemma bounder_keeps_order_witness :
  ∃ x' y' : Qc,
    iqr_winsorize [vz 1; vz 2; vz 3; vz 4; vz 100] (qfrac 3 2) !! 3%nat = Some (Num x') ∧
    iqr_winsorize [vz 1; vz 2; vz 3; vz 4; vz 100] (qfrac 3 2) !! 4%nat = Some (Num y') ∧
    x' ≤ y'.
Proof.
  apply (bounder_keeps_order _ _ 3 4 (qz 4) (qz 100)); done.
Defined.

(** X4. The thresholds depend only on the values present, not on the row
    order nor on where the missing cells are; winsorising a reordered
    column gives the reordered result. *)
Theorem bounder_ignores_row_order (column column' : Series) (k : Qc) :
  (dropna column ≡ₚ dropna column' → iqr_bounds column k = iqr_bounds column' k) ∧
  (column ≡ₚ column' → iqr_winsorize column k ≡ₚ iqr_winsorize column' k).
Proof.
  assert (Hb : dropna column ≡ₚ dropna column' →
               iqr_bounds column k = iqr_bounds column' k).
  { intros Hp. unfold iqr_bounds. by rewrite !(quantile_same_data _ _ _ Hp). }
  split; [done|]. intros Hp.
  specialize (Hb (dropna_Permutation _ _ Hp)).
  destruct (iqr_winsorize_map column k) as [[Hn ->]|(lo & up & Hn & _ & ->)];
    destruct (iqr_winsorize_map column' k) as [[Hn' ->]|(lo' & up' & Hn' & _ & ->)];
    rewrite Hn, Hn' in Hb; try done.
  injection Hb as <- <-. by apply Permutation_map.
Qed.

(** * Further properties of the cleaner *)

Section CleanerExtras.
Implicit Types d : DataFrame.
Implicit Types cs : list (string * list value).
Implicit Types col c : string.
Implicit Types step : DataFrame → string → DataFrame * list Diag.

Lemma run_steps_invariant (P : DataFrame → Prop) step cols d :
  (∀ d col, P d → P (step d col).1) → P d → P (run_steps step cols d).1.
Proof.
  intros Hstep. revert d. induction cols as [|col cols IH]; intros d HP; [done|].
  rewrite run_steps_cons. simpl. by apply IH, Hstep.
Qed.

Lemma clean_frame_invariant (P : DataFrame → Prop) d :
  (∀ d (mask : list bool) rent,
     P d → get_column d "loyer_mensuel" = Some rent → mask = keep_mask rent →
     P (select_rows d mask)) →
  (∀ d col (s s' : Series),
     P d → get_column d col = Some s → length s' = length s →
     P (set_column d col s')) →
  P d → P (clean_frame d).
Proof.
  intros Hsel Hset HP. rewrite clean_frame_unfold.
  unfold stage3, after_stage2, stage2, after_stage1.
  apply run_steps_invariant.
  { intros d' col HP'. unfold impute_step.
    destruct (get_column d' col) as [s|] eqn:Hs; [|done].
    case_bool_decide; [|done]. simpl.
    eapply Hset; [done..|]. unfold fillna. apply length_map. }
  apply run_steps_invariant.
  { intros d' col HP'. unfold winsorize_step.
    destruct (get_column d' col) as [s|] eqn:Hs; [|done]. simpl.
    eapply Hset; [done..|]. apply iqr_winsorize_length. }
  unfold stage1. destruct (get_column d "loyer_mensuel") as [rent|] eqn:Hr; [|done].
  simpl. by eapply Hsel.
Qed.

Lemma assoc_set_names col (s : Series) cs :
  is_Some (assoc_get col cs) → (assoc_set col s cs).*1 = cs.*1.
Proof.
  induction cs as [|[c s'] cs IH]; cbn [assoc_set assoc_get].
  - by intros [? ?].
  - destruct (decide (c = col)); [done|]. intros H.
    rewrite !fmap_cons. by rewrite IH.
Qed.

Lemma select_rows_names d (mask : list bool) :
  column_names (select_rows d mask) = column_names d.
Proof.
  unfold column_names, select_rows. cbn [columns].
  induction (columns d) as [|[c s] cs IH]; [done|].
  cbn [map]. rewrite !fmap_cons. by rewrite IH.
Qed.

Lemma assoc_set_lengths col (s : Series) cs (n : nat) :
  Forall (λ p, length p.2 = n) cs → length s = n →
  Forall (λ p, length p.2 = n) (assoc_set col s cs).
Proof.
  intros Hall Hs. induction Hall as [|[c s'] cs Hc Hall IH]; simpl.
  - by repeat constructor.
  - destruct (decide (c = col)); constructor; done.
Qed.

Lemma select_length_eq {A B} (mask : list bool) (l1 : list A) (l2 : list B) :
  length l1 = length l2 → length (select mask l1) = length (select mask l2).
Proof.
  revert l1 l2. induction mask as [|b mask IH]; intros [|x l1] [|y l2]; simpl;
    try done.
  intros [= Hlen]. destruct b; simpl; [f_equal|]; by apply IH.
Qed.

Lemma select_rows_well_formed d (mask : list bool) :
  well_formed d → well_formed (select_rows d mask).
Proof.
  unfold well_formed, select_rows. simpl. intros Hwf.
  induction Hwf as [|[c s] cs Hc _ IH]; simpl; constructor; [|done].
  simpl in *. by apply select_length_eq.
Qed.

(** The lines of a loop, round by round, from the frame before the loop. *)
Lemma run_steps_log_eq step f cols d :
  column_step step f → NoDup cols →
  (run_steps step cols d).2 = concat (map (λ col, (step d col).2) cols).
Proof.
  intros Hstep Hnd. revert d.
  induction Hnd as [|c cols Hnotin Hnd IH]; intros d; [done|].
  rewrite run_steps_cons. simpl. f_equal. rewrite IH. f_equal.
  apply map_ext_in. intros col Hin%list_elem_of_In.
  destruct Hstep as (_ & Hother & _ & Hlog).
  apply Hlog, Hother. by intros ->.
Qed.

Lemma concat_map_singleton {A B} (f : A → B) (l : list A) :
  concat (map (λ x, [f x]) l) = map f l.
Proof. induction l as [|x l IH]; simpl; [done|]. by rewrite IH. Qed.

Lemma stage1_lines d : (stage1 d).2 = removal_lines d.
Proof.
  unfold stage1, removal_lines.
  destruct (get_column d "loyer_mensuel") as [rent|]; [|done]. simpl.
  by rewrite series_lt_count.
Qed.

Lemma stage2_lines d col :
  (winsorize_step (after_stage1 d) col).2 = [winsorize_line d col].
Proof.
  unfold winsorize_step, winsorize_line. rewrite after_stage1_get.
  destruct (get_column d col) as [s|] eqn:Hs; simpl.
  - by rewrite (has_column_Some _ _ _ Hs).
  - by rewrite (has_column_None _ _ Hs).
Qed.

Lemma stage3_lines d col :
  col ∈ cols_to_impute → (impute_step (after_stage2 d) col).2 = impute_lines d col.
Proof.
  intros Hin. unfold impute_step, impute_lines.
  rewrite after_stage2_get, after_stage1_get.
  rewrite bool_decide_eq_false_2
    by (intros Hout; by eapply policy_lists_disjoint).
  destruct (get_column d col) as [s|]; simpl; [|done].
  fold (count_missing (rows_kept d s)).
  case_bool_decide; [|done]. done.
Qed.

Lemma clean_log_lines d :
  clean_log d
  = removal_lines d ++ map (winsorize_line d) cols_with_outliers
    ++ concat (map (impute_lines d) cols_to_impute).
Proof.
  rewrite clean_log_unfold, stage1_lines. f_equal. unfold stage2, stage3. f_equal.
  - rewrite (run_steps_log_eq _ _ _ _ winsorize_column_step cols_with_outliers_NoDup).
    fold (after_stage1 d).
    rewrite (map_ext _ (λ col, [winsorize_line d col]) (stage2_lines d)).
    apply concat_map_singleton.
  - rewrite (run_steps_log_eq _ _ _ _ impute_column_step cols_to_impute_NoDup).
    f_equal. apply map_ext_in. intros col Hin%list_elem_of_In.
    by apply stage3_lines.
Qed.

Lemma elem_of_concat_map {A B} (f : A → list B) (l : list A) (y : B) :
  y ∈ concat (map f l) ↔ ∃ x, x ∈ l ∧ y ∈ f x.
Proof.
  rewrite list_elem_of_In, in_concat. split.
  - intros (ys & Hys & Hy). apply in_map_iff in Hys as (x & <- & Hx).
    exists x. by rewrite !list_elem_of_In.
  - intros (x & Hx & Hy). exists (f x). rewrite <- !list_elem_of_In.
    split; [|done]. apply list_elem_of_In, in_map. by apply list_elem_of_In.
Qed.

Lemma clean_rent_nonneg d (rent' : Series) :
  get_column (clean_frame d) "loyer_mensuel" = Some rent' →
  Forall missing_or_nonneg rent'.
Proof.
  rewrite clean_frame_get.
  destruct (get_column d "loyer_mensuel") as [rent|] eqn:Hrent; [|done].
  simpl. intros [= <-]. rewrite treat_rent. unfold rows_kept. rewrite Hrent.
  pose proof (select_keep_nonneg rent).
  apply fillna_nonneg; [done|by apply median_nonneg].
Qed.
Lemma clean_frame_names d : column_names (clean_frame d) = column_names d.
Proof.
  apply (clean_frame_invariant (λ d', column_names d' = column_names d)).
  - intros d' mask rent H _ _. by rewrite select_rows_names.
  - intros d' col s s' H Hs _. rewrite <- H. unfold column_names, set_column. simpl.
    apply assoc_set_names. unfold get_column in Hs. by rewrite Hs.
  - done.
Qed.

Lemma clean_frame_well_formed d : well_formed d → well_formed (clean_frame d).
Proof.
  intros Hwf. apply (clean_frame_invariant well_formed); [| |done].
  - intros d' mask rent H _ _. by apply select_rows_well_formed.
  - intros d' col s s' H Hs Hlen. unfold well_formed, set_column. simpl.
    apply assoc_set_lengths; [done|].
    rewrite Hlen. by eapply well_formed_column.
Qed.

Lemma select_keep_all {A} (s : Series) (l : list A) :
  Forall missing_or_nonneg s → length l = length s → select (keep_mask s) l = l.
Proof.
  rewrite keep_mask_cells. intros Hall. revert l.
  induction Hall as [|v s Hv _ IH]; intros [|x l]; simpl; try done.
  intros [= Hlen]. assert (v_lt v 0 = false) as ->.
  { destruct v as [|y]; [done|]. simpl in *.
    apply bool_decide_eq_false_2. by apply Qcle_not_lt. }
  simpl. f_equal. by apply IH.
Qed.

(** On a cleaned frame Stage 1 finds nothing to remove. *)
Lemma rows_kept_clean {A} d (l : list A) :
  well_formed d → length l = nrows (clean_frame d) →
  match get_column (clean_frame d) "loyer_mensuel" with
  | Some rent => select (keep_mask rent) l
  | None => l
  end = l.
Proof.
  intros Hwf Hlen.
  destruct (get_column (clean_frame d) "loyer_mensuel") as [rent|] eqn:Hrent; [|done].
  apply select_keep_all; [by eapply clean_rent_nonneg|].
  rewrite Hlen. symmetry.
  eapply well_formed_column; [by apply clean_frame_well_formed|done].
Qed.

Lemma impute_twice (s : Series) :
  fillna (fillna s (median s)) (median (fillna s (median s))) = fillna s (median s).
Proof.
  destruct (decide (dropna s = [])) as [Hnil|Hne].
  - by rewrite (median_NaN s Hnil), !fillna_NaN, (median_NaN s Hnil), fillna_NaN.
  - rewrite (median_Num s Hne). apply fillna_no_missing.
    fold (count_missing (fillna s (Num (median_sorted (sort_values (dropna s)))))).
    rewrite count_missing_filled. lia.
Qed.

Lemma assoc_set_same col (s : Series) cs :
  assoc_get col cs = Some s → assoc_set col s cs = cs.
Proof.
  induction cs as [|[c s'] cs IH]; simpl; [done|].
  destruct (decide (c = col)); [by intros [= ->]|]. intros H. by rewrite IH.
Qed.

Lemma select_nil_r {A} (mask : list bool) : select mask (@nil A) = [].
Proof. by destruct mask as [|[] mask]. Qed.

Lemma assoc_get_elem col (s : Series) cs : assoc_get col cs = Some s → (col, s) ∈ cs.
Proof.
  induction cs as [|[c s'] cs IH]; simpl; [done|].
  destruct (decide (c = col)) as [->|]; [intros [= ->]; by left|].
  intros H. right. by apply IH.
Qed.

Lemma qz_le (a b : Z) : (a ≤ b)%Z → qz a ≤ qz b.
Proof. intros H. qc_unfold. by rewrite <- Zle_Qle. Qed.

Lemma qz_pos (a : Z) : (0 < a)%Z → 0 < qz a.
Proof.
  intros H. qc_unfold. change 0%Q with (inject_Z 0). by rewrite <- Zlt_Qlt.
Qed.

Lemma mask_sum_le (m : list bool) : (mask_sum m ≤ length m)%nat.
Proof.
  induction m as [|b m IH]; [done|]. rewrite mask_sum_cons. destruct b; simpl; lia.
Qed.
End CleanerExtras.

(** X5. The cleaner neither adds, removes, renames nor reorders columns:
    the header of the result is the header of the input. *)
Theorem header_preserved (d : DataFrame) :
  column_names (clean_frame d) = column_names d.
Proof. apply clean_frame_names. Qed.

(** X6. The cleaner keeps the frame rectangular: if every column of the
    input is as long as its index, so is every column of the result. *)
Theorem well_formed_preserved (d : DataFrame) :
  well_formed d → well_formed (clean_frame d).
Proof. apply clean_frame_well_formed. Qed.

Lemma well_formed_preserved_witness : well_formed (clean_frame frame_rents).
Proof. apply well_formed_preserved. repeat constructor. Defined.

(** X7. A column named in [cols_with_outliers] comes out as the winsorised
    (k = 1.5) raw column restricted to the rows Stage 1 keeps: the bounds
    are computed after the row removal, and the column is never imputed,
    its missing cells are still missing. *)
Theorem outlier_column_result (d : DataFrame) (col : string) (raw : Series) :
  col ∈ cols_with_outliers → get_column d col = Some raw →
  get_column (clean_frame d) col
    = Some (iqr_winsorize (rows_kept d raw) (qfrac 3 2)) ∧
  isna (iqr_winsorize (rows_kept d raw) (qfrac 3 2)) = isna (rows_kept d raw) ∧
  length (iqr_winsorize (rows_kept d raw) (qfrac 3 2)) = length (rows_kept d raw).
Proof.
  intros Hin Hraw. split_and!.
  - rewrite clean_frame_get, Hraw. simpl. unfold treat.
    by rewrite bool_decide_eq_true_2.
  - apply iqr_winsorize_isna.
  - apply iqr_winsorize_length.
Qed.

Lemma outlier_column_result_witness :
  get_column (clean_frame frame_heights) "taille"
  = Some (iqr_winsorize (rows_kept frame_heights [vz 0; vz 100; vz 100; vz 100])
            (qfrac 3 2)).
Proof.
  refine (proj1 (outlier_column_result frame_heights "taille"
                   [vz 0; vz 100; vz 100; vz 100] _ _)).
  - by apply (bool_decide_unpack _).
  - reflexivity.
Defined.

(** X8. The console after a run, in order: the removal line if a rent is
    negative, then exactly one line per outlier column in the listed
    order (applied or not found), then for each imputation column in the
    listed order its imputation line, its not-found line, or nothing. *)
Theorem console_output (d : DataFrame) :
  run_clean d = inr (clean_frame d, clean_log d, d) ∧
  clean_log d
  = removal_lines d
    ++ map (winsorize_line d) cols_with_outliers
    ++ concat (map (impute_lines d) cols_to_impute).
Proof. split; [apply run_clean_eq|apply clean_log_lines]. Qed.

(** X9. Nothing is printed for a stage that has nothing to do: the
    removal line appears exactly when the rent column has a negative value
    (and reports how many), and an imputation line for a column appears
    exactly when that column, on the rows kept, has a missing cell. *)
Theorem silent_when_nothing_to_do (d : DataFrame) :
  (∀ n, InfoRemoved n ∈ clean_log d ↔
     ∃ rent, get_column d "loyer_mensuel" = Some rent ∧
             n = count_negative rent ∧ (0 < n)%nat) ∧
  (∀ col a m b, InfoImputed col a m b ∈ clean_log d ↔
     col ∈ cols_to_impute ∧
     ∃ raw, get_column d col = Some raw ∧
            (0 < count_missing (rows_kept d raw))%nat ∧
            a = count_missing (rows_kept d raw) ∧
            m = median (rows_kept d raw) ∧
            b = count_missing (fillna (rows_kept d raw) m)).
Proof.
  rewrite clean_log_lines. split.
  - intros n. rewrite !elem_of_app. split.
    + intros [H|[H|H]].
      * unfold removal_lines in H.
        destruct (get_column d "loyer_mensuel") as [rent|]; [|by apply elem_of_nil in H].
        case_bool_decide; [|by apply elem_of_nil in H].
        apply list_elem_of_singleton in H as [= ->]. by exists rent.
      * apply list_elem_of_In, in_map_iff in H as (c & Hc & _).
        unfold winsorize_line in Hc. by destruct (has_column d c).
      * apply elem_of_concat_map in H as (c & _ & Hc). unfold impute_lines in Hc.
        destruct (get_column d c); [|by apply list_elem_of_singleton in Hc].
        case_bool_decide; [by apply list_elem_of_singleton in Hc|by apply elem_of_nil in Hc].
    + intros (rent & Hrent & -> & Hpos). left. unfold removal_lines.
      rewrite Hrent, bool_decide_eq_true_2 by done. by apply list_elem_of_singleton.
  - intros col a m b. rewrite !elem_of_app. split.
    + intros [H|[H|H]].
      * unfold removal_lines in H.
        destruct (get_column d "loyer_mensuel") as [rent|]; [|by apply elem_of_nil in H].
        case_bool_decide; [by apply list_elem_of_singleton in H|by apply elem_of_nil in H].
      * apply list_elem_of_In, in_map_iff in H as (c & Hc & _).
        unfold winsorize_line in Hc. by destruct (has_column d c).
      * apply elem_of_concat_map in H as (c & Hin & Hc). unfold impute_lines in Hc.
        destruct (get_column d c) as [raw|] eqn:Hraw;
          [|by apply list_elem_of_singleton in Hc].
        case_bool_decide; [|by apply elem_of_nil in Hc].
        apply list_elem_of_singleton in Hc as [= -> -> -> ->].
        split; [done|]. by exists raw.
    + intros (Hin & raw & Hraw & Hpos & -> & -> & ->). right. right.
      apply elem_of_concat_map. exists col. split; [done|].
      unfold impute_lines. rewrite Hraw, bool_decide_eq_true_2 by done.
      by apply list_elem_of_singleton.
Qed.

(** X10. Running the cleaner on its own output removes no further row and
    changes no column outside [cols_with_outliers]: the rents are already
    missing or non-negative and the imputed columns already filled.  (An
    outlier column may be clipped again, as the Outlier Bounder is not
    idempotent.) *)
Theorem second_run_only_winsorizes (d : DataFrame) :
  well_formed d →
  index (clean_frame (clean_frame d)) = index (clean_frame d) ∧
  (∀ col, col ∉ cols_with_outliers →
     get_column (clean_frame (clean_frame d)) col = get_column (clean_frame d) col).
Proof.
  intros Hwf. split.
  - rewrite clean_frame_index, after_stage1_index. by apply rows_kept_clean.
  - intros col Hout. rewrite (clean_frame_get (clean_frame d)).
    destruct (get_column (clean_frame d) col) as [s|] eqn:Hs; [|done].
    simpl. f_equal. unfold rows_kept.
    rewrite rows_kept_clean; [|done|].
    2:{ eapply well_formed_column; [by apply clean_frame_well_formed|done]. }
    unfold treat. rewrite bool_decide_eq_false_2 by done.
    case_bool_decide as Himp; [|done].
    rewrite clean_frame_get in Hs.
    destruct (get_column d col) as [raw|]; [|done].
    simpl in Hs. injection Hs as <-. unfold treat.
    rewrite bool_decide_eq_false_2, bool_decide_eq_true_2 by done.
    apply impute_twice.
Qed.

Lemma second_run_only_winsorizes_witness :
  index (clean_frame (clean_frame frame_rents)) = index (clean_frame frame_rents).
Proof.
  refine (proj1 (second_run_only_winsorizes frame_rents _)). repeat constructor.
Defined.

(** X11. A frame without rows goes through the cleaner unchanged and
    without an exception: the quartiles and the median of an empty column
    are missing, so nothing is clipped and nothing is filled. *)
Theorem no_rows_unchanged (d : DataFrame) :
  well_formed d → nrows d = 0%nat →
  clean_frame d = d ∧ run_clean d = inr (d, clean_log d, d).
Proof.
  intros Hwf Hrows.
  assert (Hcol : ∀ col (s : Series), get_column d col = Some s → s = []).
  { intros col s Hs. apply nil_length_inv.
    rewrite (well_formed_column _ _ _ Hwf Hs). done. }
  assert (Heq : clean_frame d = d).
  { apply (clean_frame_invariant (λ d', d' = d)); [| |done].
    - intros d' mask rent -> _ _. destruct d as [idx cs].
      unfold select_rows, nrows, well_formed in *. simpl in *.
      apply nil_length_inv in Hrows. subst idx. rewrite select_nil_r. f_equal.
      clear Hcol. induction Hwf as [|[c s] cs Hc _ IH]; simpl; [done|].
      simpl in Hc. apply nil_length_inv in Hc. subst s.
      by rewrite select_nil_r, IH.
    - intros d' col s s' -> Hs Hlen.
      pose proof (Hcol _ _ Hs) as ->. apply nil_length_inv in Hlen as ->.
      destruct d as [idx cs]. unfold set_column, get_column in *. simpl in *.
      by rewrite (assoc_set_same _ _ _ Hs). }
  split; [done|]. by rewrite run_clean_eq, Heq.
Qed.

Lemma no_rows_unchanged_witness :
  clean_frame (mkDF [] [("taille"%string, []); ("loyer_mensuel"%string, [])])
  = mkDF [] [("taille"%string, []); ("loyer_mensuel"%string, [])].
Proof.
  refine (proj1 (no_rows_unchanged
    (mkDF [] [("taille"%string, []); ("loyer_mensuel"%string, [])]) _ _)).
  - repeat constructor.
  - reflexivity.
Defined.

(** X12. The missing-value percentage [main] reports for a column is
    missing exactly when the frame has no row, and otherwise lies between
    0 and 100. *)
Theorem missing_pct_range (s : Series) :
  (missing_pct_column s = NaN ↔ s = []) ∧
  (∀ p : Qc, missing_pct_column s = Num p → 0 ≤ p ∧ p ≤ qz 100).
Proof.
  unfold missing_pct_column, isna_mean. destruct s as [|v s]; [by split|].
  split; [by split|]. intros p [= <-].
  set (cnt := mask_sum (isna (v :: s))). set (len := length (v :: s)).
  assert (Hcnt : (cnt ≤ len)%nat).
  { unfold cnt, len, isna. etrans; [apply mask_sum_le|]. by rewrite length_map. }
  assert (Hlen : 0 < qz (Z.of_nat len)) by (apply qz_pos; unfold len; simpl; lia).
  assert (Hinv : 0 ≤ / qz (Z.of_nat len)) by (by apply Qclt_le_weak, Qcinv_pos).
  assert (H0 : 0 ≤ qz (Z.of_nat cnt) / qz (Z.of_nat len)).
  { unfold Qcdiv. apply Qcmult_nonneg_nonneg; [|done]. apply (qz_le 0). lia. }
  assert (H1 : qz (Z.of_nat cnt) / qz (Z.of_nat len) ≤ 1).
  { rewrite <- (Qcmult_inv_r (qz (Z.of_nat len))).
    - unfold Qcdiv. apply Qcmult_le_compat_r; [|done]. apply qz_le. lia.
    - intros Hz. rewrite Hz in Hlen. by apply Qclt_not_le in Hlen. }
  split.
  - by apply Qcmult_nonneg_nonneg.
  - rewrite <- (Qcmult_1_l (qz 100)) at 2. by apply Qcmult_le_compat_r.
Qed.

(** X13. After cleaning, the percentage reported for an imputation column
    that is present and holds at least one value after Stage 2 is 0. *)
Theorem missing_pct_zero_after_imputation (d : DataFrame) (col : string) (s : Series) :
  col ∈ cols_to_impute →
  get_column (after_stage2 d) col = Some s →
  dropna s ≠ [] →
  (col, Num 0) ∈ missing_pct (clean_frame d).
Proof.
  intros Hin Hs Hne.
  assert (Hget : get_column (clean_frame d) col = Some (fillna s (median s)))
    by (by rewrite impute_get, Hs).
  apply assoc_get_elem in Hget.
  apply list_elem_of_In, (in_map (λ c, (c.1, missing_pct_column c.2))) in Hget.
  apply list_elem_of_In. unfold missing_pct.
  replace (Num 0) with (missing_pct_column (fillna s (median s))); [done|].
  rewrite (median_Num s Hne).
  unfold missing_pct_column, isna_mean.
  fold (count_missing (fillna s (Num (median_sorted (sort_values (dropna s)))))).
  rewrite count_missing_filled.
  destruct s as [|v s]; [done|]. simpl. f_equal.
Qed.

Lemma missing_pct_zero_after_imputation_witness :
  ("score_credit"%string, Num 0) ∈ missing_pct (clean_frame frame_score_gap).
Proof.
  apply (missing_pct_zero_after_imputation frame_score_gap "score_credit"
           [vz 10; vz 20; NaN; vz 40]).
  - by apply (bool_decide_unpack _).
  - by_computation.
  - done.
Defined.
